(** * gdc-bank-FE: the streaming reader of [getAiInsights] (src/App.tsx)

    A shallow embedding of the body of [getAiInsights]: the per-chunk
    [TextDecoder.decode], the regular expression [/data:\s*({.+?})\n?/g]
    driven by [regex.exec] in a loop, the [includes("[DONE]")] test,
    [JSON.parse], the optional chain [parsed.choices?.[0]?.delta?.content],
    and the React state updates [setInsight] / [setLoading].

    The file holds a second [App] component, whose [getAiInsights] cleans
    each chunk with [split], [map] and [join] instead; it is embedded as
    [App2], and the state-dependent parts of the JSX as [View].

    JavaScript strings are sequences of UTF-16 code units; they are modelled
    as [list Z].  The platform functions the component calls (TextDecoder,
    RegExp, JSON.parse, the [+] operator) are embedded after ECMA-262 and the
    WHATWG Encoding standard. *)

From Stdlib Require Import String Ascii ZArith List Bool Lia.
Import ListNotations.
Set Warnings "-register-all".
Local Open Scope Z_scope.

(* ================================================================== *)
(** ** JavaScript strings *)

Module JS.

(** A UTF-16 code unit, [0 <= u < 65536]. *)
Abbreviation code_unit := Z (only parsing).

Abbreviation jsstring := (list Z) (only parsing).

(** A string literal of the source, written with ASCII characters. *)
Definition lit (s : string) : jsstring :=
  map (fun a => Z.of_N (N_of_ascii a)) (list_ascii_of_string s).

(** A literal in which every apostrophe stands for a quotation mark (U+0022),
    for writing JSON texts. *)
Definition quoted (s : string) : jsstring :=
  map (fun c => if c =? 39 then 34 else c) (lit s).

(** U+000A. *)
Definition LF : code_unit := 10.

Fixpoint jsstring_eqb (a b : jsstring) : bool :=
  match a, b with
  | [], [] => true
  | x :: a', y :: b' => (x =? y) && jsstring_eqb a' b'
  | _, _ => false
  end.

(** [IsStringPrefix(p, s)] *)
Fixpoint starts_with (p s : jsstring) : bool :=
  match p, s with
  | [], _ => true
  | x :: p', y :: s' => (x =? y) && starts_with p' s'
  | _ :: _, [] => false
  end.

(** [String.prototype.includes(searchString)] with position 0. *)
Fixpoint includes (s needle : jsstring) : bool :=
  starts_with needle s ||
  match s with
  | [] => false
  | _ :: s' => includes s' needle
  end.

End JS.
Export JS.

(* ================================================================== *)
(** ** Regular expressions (ECMA-262, 22.2.2), without flags [u], [i], [s]

    The matcher is the backtracking matcher of the standard in
    continuation-passing style.  Quantifiers are restricted to atoms that
    consume exactly one code unit, which is all the pattern of the source
    uses; this makes the matcher structurally recursive on the input. *)

Module RegExp.

(** [WhiteSpace] and [LineTerminator] code points: the class [\s]. *)
Definition is_white_space (c : code_unit) : bool :=
  (c =? 9) || (c =? 10) || (c =? 11) || (c =? 12) || (c =? 13) || (c =? 32)
  || (c =? 160) || (c =? 5760) || ((8192 <=? c) && (c <=? 8202))
  || (c =? 8232) || (c =? 8233) || (c =? 8239) || (c =? 8287)
  || (c =? 12288) || (c =? 65279).

(** [LineTerminator]: LF, CR, LS, PS. *)
Definition is_line_terminator (c : code_unit) : bool :=
  (c =? 10) || (c =? 13) || (c =? 8232) || (c =? 8233).

(** One-character atoms. *)
Inductive atom :=
| Char (c : code_unit)      (* a pattern character *)
| Dot                       (* [.] : anything but a line terminator *)
| Space.                    (* [\s] *)

Definition atom_matches (a : atom) (c : code_unit) : bool :=
  match a with
  | Char d => c =? d
  | Dot => negb (is_line_terminator c)
  | Space => is_white_space c
  end.

Inductive regex :=
| Empty
| Atom (a : atom)
| Seq (r1 r2 : regex)
| Star (a : atom)           (* [a*]  greedy *)
| LazyPlus (a : atom)       (* [a+?] lazy *)
| Opt (r : regex)           (* [r?]  greedy *)
| Group (r : regex).        (* [(r)] the capturing group 1 *)

(** The state of a match: the rest of the input after the end index, and
    what group 1 captured. *)
Record mstate := MState { rest : jsstring; capture : option jsstring }.

Definition continuation := mstate -> option mstate.

(** Greedy [a*]: take one more [a] and continue; when that fails, stop here. *)
Fixpoint star_m (a : atom) (s : jsstring) (cap : option jsstring)
    (k : continuation) : option mstate :=
  match s with
  | c :: s' =>
      if atom_matches a c then
        match star_m a s' cap k with
        | Some r => Some r
        | None => k (MState s cap)
        end
      else k (MState s cap)
  | [] => k (MState s cap)
  end.

(** Lazy [a*?]: stop here; when the continuation fails, take one more [a]. *)
Fixpoint lazy_star_m (a : atom) (s : jsstring) (cap : option jsstring)
    (k : continuation) : option mstate :=
  match k (MState s cap) with
  | Some r => Some r
  | None =>
      match s with
      | c :: s' => if atom_matches a c then lazy_star_m a s' cap k else None
      | [] => None
      end
  end.

(** The text between the start of a group and the rest at its end. *)
Definition consumed (from to : jsstring) : jsstring :=
  firstn (length from - length to)%nat from.

Fixpoint m (r : regex) (x : mstate) (k : continuation) : option mstate :=
  match r with
  | Empty => k x
  | Atom a =>
      match rest x with
      | c :: s' => if atom_matches a c then k (MState s' (capture x)) else None
      | [] => None
      end
  | Seq r1 r2 => m r1 x (fun y => m r2 y k)
  | Star a => star_m a (rest x) (capture x) k
  | LazyPlus a =>
      match rest x with
      | c :: s' =>
          if atom_matches a c then lazy_star_m a s' (capture x) k else None
      | [] => None
      end
  | Opt r1 =>
      match m r1 x k with
      | Some r => Some r
      | None => k x
      end
  | Group r1 =>
      m r1 x (fun y => k (MState (rest y) (Some (consumed (rest x) (rest y)))))
  end.

(** A sequence of pattern characters. *)
Fixpoint chars (s : jsstring) : regex :=
  match s with
  | [] => Empty
  | c :: s' => Seq (Atom (Char c)) (chars s')
  end.

(** One attempt at the current index. *)
Definition match_here (r : regex) (s : jsstring) : option mstate :=
  m r (MState s None) (fun y => Some y).

(** [RegExpBuiltinExec] for a global pattern: attempts at [lastIndex],
    [lastIndex + 1], ... up to and including the end of the input.  The
    input is given as the suffix that starts at [lastIndex]. *)
Fixpoint exec (r : regex) (s : jsstring) : option mstate :=
  match match_here r s with
  | Some y => Some y
  | None =>
      match s with
      | [] => None
      | _ :: s' => exec r s'
      end
  end.

End RegExp.

(* ================================================================== *)
(** ** TextDecoder (WHATWG Encoding): UTF-8, [fatal] and [ignoreBOM] false

    The source constructs [new TextDecoder()] once and calls
    [decoder.decode(value)] with no options, so [stream] is false: every
    call starts from a new decoder and flushes at the end of its input. *)

Module TextDecoder.

Abbreviation byte := Z (only parsing).

(** The state of the UTF-8 decoder. *)
Record utf8_state := Utf8State {
  code_point : Z;
  bytes_seen : Z;
  bytes_needed : Z;
  lower_boundary : Z;
  upper_boundary : Z
}.

Definition utf8_init : utf8_state := Utf8State 0 0 0 128 191.

Inductive handler_result :=
| Continue
| Emit (cp : Z)
| Error                   (* error *)
| ErrorRestore.           (* error, and the byte is restored to the queue *)

(** The handler of the UTF-8 decoder for a byte (not end-of-queue). *)
Definition utf8_handler (st : utf8_state) (b : byte)
    : utf8_state * handler_result :=
  if bytes_needed st =? 0 then
    if (0 <=? b) && (b <=? 127) then (st, Emit b)
    else if (194 <=? b) && (b <=? 223) then
      (Utf8State (Z.land b 31) (bytes_seen st) 1
         (lower_boundary st) (upper_boundary st), Continue)
    else if (224 <=? b) && (b <=? 239) then
      (Utf8State (Z.land b 15) (bytes_seen st) 2
         (if b =? 224 then 160 else lower_boundary st)
         (if b =? 237 then 159 else upper_boundary st), Continue)
    else if (240 <=? b) && (b <=? 244) then
      (Utf8State (Z.land b 7) (bytes_seen st) 3
         (if b =? 240 then 144 else lower_boundary st)
         (if b =? 244 then 143 else upper_boundary st), Continue)
    else (st, Error)
  else if negb ((lower_boundary st <=? b) && (b <=? upper_boundary st)) then
    (utf8_init, ErrorRestore)
  else
    let cp := Z.lor (Z.shiftl (code_point st) 6) (Z.land b 63) in
    let seen := bytes_seen st + 1 in
    if negb (seen =? bytes_needed st) then
      (Utf8State cp seen (bytes_needed st) 128 191, Continue)
    else (utf8_init, Emit cp).

(** With [fatal] false an error emits U+FFFD. *)
Definition emitted (r : handler_result) : list Z :=
  match r with
  | Continue => []
  | Emit cp => [cp]
  | Error | ErrorRestore => [65533]
  end.

(** Processing one byte of the queue; a restored byte is read again at once. *)
Definition process_byte (st : utf8_state) (b : byte) : utf8_state * list Z :=
  let (st1, r) := utf8_handler st b in
  match r with
  | ErrorRestore =>
      let (st2, r2) := utf8_handler st1 b in (st2, emitted r ++ emitted r2)
  | _ => (st1, emitted r)
  end.

(** The queue of bytes up to end-of-queue; at end-of-queue an unfinished
    sequence is an error. *)
Fixpoint process_queue (st : utf8_state) (q : list byte) : list Z :=
  match q with
  | [] => if bytes_needed st =? 0 then [] else [65533]
  | b :: q' => let (st', out) := process_byte st b in out ++ process_queue st' q'
  end.

(** The state the decoder is in after the bytes of [q], and what it has
    emitted by then. *)
Fixpoint end_state (st : utf8_state) (q : list byte) : utf8_state :=
  match q with
  | [] => st
  | b :: q' => end_state (fst (process_byte st b)) q'
  end.

Fixpoint emitted_by (st : utf8_state) (q : list byte) : list Z :=
  match q with
  | [] => []
  | b :: q' =>
      snd (process_byte st b) ++ emitted_by (fst (process_byte st b)) q'
  end.

(** What holds of every state the decoder reaches: between sequences it is
    the initial state, and the boundaries stay within the continuation
    bytes. *)
Definition reachable (st : utf8_state) : Prop :=
  (bytes_needed st = 0 -> st = utf8_init) /\
  128 <= lower_boundary st /\ upper_boundary st <= 191.

(** Serialize I/O queue: the first item is dropped if it is U+FEFF. *)
Definition strip_bom (out : list Z) : list Z :=
  match out with
  | cp :: out' => if cp =? 65279 then out' else out
  | [] => []
  end.

(** A scalar value as UTF-16 code units. *)
Definition utf16 (cp : Z) : jsstring :=
  if cp <? 65536 then [cp]
  else [55296 + Z.shiftr (cp - 65536) 10; 56320 + Z.land (cp - 65536) 1023].

(** [decoder.decode(value)] *)
Definition decode (value : list byte) : jsstring :=
  flat_map utf16 (strip_bom (process_queue utf8_init value)).

End TextDecoder.

(* ================================================================== *)
(** ** Number values (ECMA-262, 6.1.6.1)

    A numeric literal of a JSON text denotes a mathematical value
    [coeff * 10 ^ exp10]; its Number value is the IEEE 754 binary64 value
    nearest to it (ties to even).  Finite non-zero doubles are kept exactly,
    as [mant * 2 ^ expo]. *)

Module Number.

Record decimal := Decimal { negative : bool; coeff : Z; exp10 : Z }.

Inductive magnitude :=
| Zero
| Finite (mant expo : Z)
| Infinity.

Record number := Num { sign : bool; mag : magnitude }.

(** The mathematical value [c * 10 ^ e] as a fraction of positive integers. *)
Definition fraction (c e : Z) : Z * Z :=
  if 0 <=? e then (c * 10 ^ e, 1) else (c, 10 ^ (- e)).

(** [num / (den * 2 ^ q)] as a fraction, for any integer [q]. *)
Definition scaled (num den q : Z) : Z * Z :=
  if 0 <=? q then (num, den * 2 ^ q) else (num * 2 ^ (- q), den).

(** Rounding a positive fraction to binary64, ties to even. *)
Definition round_fraction (num den : Z) : magnitude :=
  if num <=? 0 then Zero else
  let q0 := Z.log2 num - Z.log2 den - 52 in
  let (n0, d0) := scaled num den q0 in
  let q1 := if n0 / d0 <? 2 ^ 52 then q0 - 1 else q0 in
  let q := Z.max q1 (- 1074) in
  let (n, d) := scaled num den q in
  let m0 := n / d in
  let r := n mod d in
  let up := (d <? 2 * r) || ((d =? 2 * r) && Z.odd m0) in
  let m1 := if up then m0 + 1 else m0 in
  let (mant, expo) := if m1 =? 2 ^ 53 then (2 ^ 52, q + 1) else (m1, q) in
  if mant =? 0 then Zero
  else if 971 <? expo then Infinity
  else Finite mant expo.

(** The Number value of a decimal literal. *)
Definition of_decimal (d : decimal) : number :=
  let (num, den) := fraction (coeff d) (exp10 d) in
  Num (negative d) (round_fraction num den).

(** [ToBoolean] of a Number: false for +0 and -0 (a JSON text has no NaN). *)
Definition to_boolean (x : number) : bool :=
  match mag x with
  | Zero => false
  | _ => true
  end.

(** Decimal digits of a non-negative integer, most significant first. *)
Fixpoint digits_fuel (fuel : nat) (z : Z) (acc : jsstring) : jsstring :=
  match fuel with
  | O => acc
  | S f =>
      let acc' := (48 + z mod 10) :: acc in
      if z <? 10 then acc' else digits_fuel f (z / 10) acc'
  end.

Definition digits (z : Z) : jsstring :=
  digits_fuel (S (Z.to_nat (Z.log2 z))) z [].

(** The least [n], from [n0] upwards, with [num / den < 10 ^ n]. *)
Fixpoint magnitude_exp (fuel : nat) (num den n : Z) : Z :=
  match fuel with
  | O => n
  | S f =>
      let (a, b) := fraction 1 n in
      if num * b <? den * a then n else magnitude_exp f num den (n + 1)
  end.

(** The candidates with [k] digits for [x = num / den], where
    [10 ^ (n - 1) <= x < 10 ^ n]: the integers [s] next to [x / 10 ^ (n - k)]
    whose value [s * 10 ^ (n - k)] has [x] for Number value, the closest to
    [x] first and of two equally close ones the even one. *)
Definition candidate (x : magnitude) (num den n k : Z) : option (Z * Z) :=
  let (a, b) := fraction 1 (k - n) in     (* 10 ^ (k - n) *)
  let lo := (num * a) / (den * b) in
  let r := (num * a) mod (den * b) in
  let hi := lo + 1 in
  let value_is (s : Z) :=
    let (vn, vd) := fraction s (n - k) in
    match round_fraction vn vd, x with
    | Finite m1 e1, Finite m2 e2 => (m1 =? m2) && (e1 =? e2)
    | _, _ => false
    end in
  let norm (s : Z) := if s =? 10 ^ k then (10 ^ (k - 1), n + 1) else (s, n) in
  let ok_lo := (10 ^ (k - 1) <=? lo) && value_is lo in
  let ok_hi := value_is hi in
  let lo_first := (2 * r <? den * b) || ((2 * r =? den * b) && Z.even lo) in
  if ok_lo && ok_hi then Some (if lo_first then (lo, n) else norm hi)
  else if ok_lo then Some (lo, n)
  else if ok_hi then Some (norm hi)
  else None.

Fixpoint shortest (fuel : nat) (x : magnitude) (num den n k : Z)
    : Z * Z * Z :=
  match fuel with
  | O => (n, k, 0)
  | S f =>
      match candidate x num den n k with
      | Some (s, n') => (n', k, s)
      | None => shortest f x num den n (k + 1)
      end
  end.

Definition zeros (n : Z) : jsstring := repeat 48 (Z.to_nat n).

(** [Number::toString(x, 10)] *)
Definition to_string (x : number) : jsstring :=
  match mag x with
  | Zero => lit "0"
  | Infinity => (if sign x then lit "-" else []) ++ lit "Infinity"
  | Finite mant expo =>
      let (num, den) := scaled mant 1 (- expo) in
      let n0 := magnitude_exp 640 num den (- 323) in
      let '(n, k, s) := shortest 17 (Finite mant expo) num den n0 1 in
      let ds := digits s in
      let body :=
        if (- 5 <=? n) && (n <=? 21) then
          if k <=? n then ds ++ zeros (n - k)
          else if 0 <? n then
            firstn (Z.to_nat n) ds ++ lit "." ++ skipn (Z.to_nat n) ds
          else lit "0." ++ zeros (- n) ++ ds
        else
          let e := (if n <? 0 then lit "-" else lit "+")
                   ++ digits (Z.abs (n - 1)) in
          if k =? 1 then ds ++ lit "e" ++ e
          else firstn 1 ds ++ lit "." ++ skipn 1 ds ++ lit "e" ++ e
      in (if sign x then lit "-" else []) ++ body
  end.

End Number.

(* ================================================================== *)
(** ** JSON.parse (ECMA-262, 25.5.1; the JSON grammar of ECMA-404) *)

Module JSON.

Inductive json :=
| JNull
| JBool (b : bool)
| JNum (n : Number.number)
| JStr (s : jsstring)
| JArr (elements : list json)
| JObj (members : list (jsstring * json)).
  (* the members in source order; of equal keys the last one is the property *)

(** JSONWhiteSpace: TAB, LF, CR, SP. *)
Definition is_json_ws (c : code_unit) : bool :=
  (c =? 9) || (c =? 10) || (c =? 13) || (c =? 32).

Fixpoint skip_ws (s : jsstring) : jsstring :=
  match s with
  | c :: s' => if is_json_ws c then skip_ws s' else s
  | [] => []
  end.

Definition is_digit (c : code_unit) : bool := (48 <=? c) && (c <=? 57).

Definition hex_value (c : code_unit) : option Z :=
  if (48 <=? c) && (c <=? 57) then Some (c - 48)
  else if (65 <=? c) && (c <=? 70) then Some (c - 55)
  else if (97 <=? c) && (c <=? 102) then Some (c - 87)
  else None.

Definition hex4 (a b c d : code_unit) : option code_unit :=
  match hex_value a, hex_value b, hex_value c, hex_value d with
  | Some x, Some y, Some z, Some w => Some (((x * 16 + y) * 16 + z) * 16 + w)
  | _, _, _, _ => None
  end.

(** JSONEscapeCharacter: quotation mark, solidus, reverse solidus, b, f, n,
    r, t. *)
Definition escape (c : code_unit) : option code_unit :=
  if c =? 34 then Some 34
  else if c =? 47 then Some 47
  else if c =? 92 then Some 92
  else if c =? 98 then Some 8
  else if c =? 102 then Some 12
  else if c =? 110 then Some 10
  else if c =? 114 then Some 13
  else if c =? 116 then Some 9
  else None.

(** JSONStringCharacters up to the closing quote; [acc] is reversed. *)
Fixpoint parse_string_chars (s acc : jsstring) : option (jsstring * jsstring) :=
  match s with
  | [] => None
  | c :: s1 =>
      if c =? 34 then Some (rev acc, s1)
      else if c =? 92 then
        match s1 with
        | e :: s2 =>
            if e =? 117 then
              match s2 with
              | h1 :: h2 :: h3 :: h4 :: s3 =>
                  match hex4 h1 h2 h3 h4 with
                  | Some u => parse_string_chars s3 (u :: acc)
                  | None => None
                  end
              | _ => None
              end
            else
              match escape e with
              | Some u => parse_string_chars s2 (u :: acc)
              | None => None
              end
        | [] => None
        end
      else if c <? 32 then None
      else parse_string_chars s1 (c :: acc)
  end.

(** DecimalDigits: the digits read, their number and value, and the rest. *)
Fixpoint parse_digits (s : jsstring) (count value : Z) : Z * Z * jsstring :=
  match s with
  | c :: s' =>
      if is_digit c then parse_digits s' (count + 1) (value * 10 + (c - 48))
      else (count, value, s)
  | [] => (count, value, s)
  end.

(** JSONNumber: an optional minus sign, 0 or a digit sequence without a
    leading 0, an optional fraction, an optional exponent. *)
Definition parse_sign (s : jsstring) : bool * jsstring :=
  match s with
  | c :: s' => if c =? 45 then (true, s') else (false, s)
  | [] => (false, s)
  end.

(** The integer part: its value. *)
Definition parse_int (s : jsstring) : option (Z * jsstring) :=
  match s with
  | c :: s' =>
      if c =? 48 then Some (0, s')
      else if is_digit c then
        let '(_, v, s2) := parse_digits s 0 0 in Some (v, s2)
      else None
  | [] => None
  end.

(** The fraction after the integer part [i]: the value of all digits read
    so far and the number of fraction digits. *)
Definition parse_frac (i : Z) (s : jsstring) : option (Z * Z * jsstring) :=
  match s with
  | c :: s' =>
      if c =? 46 then
        let '(n, v, s3) := parse_digits s' 0 i in
        if n =? 0 then None else Some (v, n, s3)
      else Some (i, 0, s)
  | [] => Some (i, 0, s)
  end.

(** The exponent part: its value. *)
Definition parse_exp (s : jsstring) : option (Z * jsstring) :=
  match s with
  | c :: s' =>
      if (c =? 101) || (c =? 69) then
        let (eneg, s4) :=
          match s' with
          | d :: s'' =>
              if d =? 45 then (true, s'')
              else if d =? 43 then (false, s'')
              else (false, s')
          | [] => (false, s')
          end in
        let '(m, e, s5) := parse_digits s4 0 0 in
        if m =? 0 then None
        else Some ((if eneg then - e else e), s5)
      else Some (0, s)
  | [] => Some (0, s)
  end.

Definition parse_number (s : jsstring) : option (Number.decimal * jsstring) :=
  let (neg, s1) := parse_sign s in
  match parse_int s1 with
  | None => None
  | Some (i, s2) =>
      match parse_frac i s2 with
      | None => None
      | Some (v, n, s3) =>
          match parse_exp s3 with
          | None => None
          | Some (e, s5) => Some (Number.Decimal neg v (e - n), s5)
          end
      end
  end.

Definition parse_literal (word : jsstring) (v : json) (s : jsstring)
    : option (json * jsstring) :=
  if starts_with word s then Some (v, skipn (length word) s) else None.

(** JSONElementList after [[]: values separated by [,] up to []]. *)
Fixpoint parse_elements (value : jsstring -> option (json * jsstring))
    (fuel : nat) (s : jsstring) (acc : list json)
    : option (list json * jsstring) :=
  match fuel with
  | O => None
  | S f =>
      match value s with
      | None => None
      | Some (v, s1) =>
          match skip_ws s1 with
          | c :: s2 =>
              if c =? 44 then parse_elements value f s2 (v :: acc)
              else if c =? 93 then Some (rev (v :: acc), s2)
              else None
          | [] => None
          end
      end
  end.

(** JSONMemberList after [{]: [string : value] separated by [,] up to [}]. *)
Fixpoint parse_members (value : jsstring -> option (json * jsstring))
    (fuel : nat) (s : jsstring) (acc : list (jsstring * json))
    : option (list (jsstring * json) * jsstring) :=
  match fuel with
  | O => None
  | S f =>
      match skip_ws s with
      | q :: s0 =>
          if q =? 34 then
            match parse_string_chars s0 [] with
            | None => None
            | Some (key, s1) =>
                match skip_ws s1 with
                | c :: s2 =>
                    if c =? 58 then
                      match value s2 with
                      | None => None
                      | Some (v, s3) =>
                          match skip_ws s3 with
                          | d :: s4 =>
                              if d =? 44
                              then parse_members value f s4 ((key, v) :: acc)
                              else if d =? 125
                              then Some (rev ((key, v) :: acc), s4)
                              else None
                          | [] => None
                          end
                      end
                    else None
                | [] => None
                end
            end
          else None
      | [] => None
      end
  end.

(** JSONValue, with the white space before it. *)
Fixpoint parse_value (fuel : nat) (s : jsstring) : option (json * jsstring) :=
  match fuel with
  | O => None
  | S f =>
      match skip_ws s with
      | [] => None
      | c :: s1 =>
          if c =? 123 then
            match skip_ws s1 with
            | d :: s2 =>
                if d =? 125 then Some (JObj [], s2)
                else
                  match parse_members (parse_value f) f s1 [] with
                  | Some (ms, s3) => Some (JObj ms, s3)
                  | None => None
                  end
            | [] => None
            end
          else if c =? 91 then
            match skip_ws s1 with
            | d :: s2 =>
                if d =? 93 then Some (JArr [], s2)
                else
                  match parse_elements (parse_value f) f s1 [] with
                  | Some (vs, s3) => Some (JArr vs, s3)
                  | None => None
                  end
            | [] => None
            end
          else if c =? 34 then
            match parse_string_chars s1 [] with
            | Some (str, s2) => Some (JStr str, s2)
            | None => None
            end
          else if c =? 116 then parse_literal (lit "true") (JBool true) (c :: s1)
          else if c =? 102 then parse_literal (lit "false") (JBool false) (c :: s1)
          else if c =? 110 then parse_literal (lit "null") JNull (c :: s1)
          else
            match parse_number (c :: s1) with
            | Some (d, s2) => Some (JNum (Number.of_decimal d), s2)
            | None => None
            end
      end
  end.

(** [JSON.parse(text)]: one JSONValue between optional white space; [None]
    stands for the SyntaxError it throws otherwise.  The recursion depth and
    the number of members of a list are bounded by the length of the text. *)
Definition parse (text : jsstring) : option json :=
  match parse_value (S (length text)) text with
  | Some (v, s) =>
      match skip_ws s with
      | [] => Some v
      | _ :: _ => None
      end
  | None => None
  end.

End JSON.

(* ================================================================== *)
(** ** Property access, [||] and string concatenation on parsed values *)

Module Value.
Import JSON.

(** A JavaScript value that comes out of a parsed JSON text, or [undefined]. *)
Inductive value :=
| Undefined
| Of (j : json).

(** The last member with the given key. *)
Fixpoint lookup (key : jsstring) (ms : list (jsstring * json)) : value :=
  match ms with
  | [] => Undefined
  | (k, v) :: ms' =>
      match lookup key ms' with
      | Of w => Of w
      | Undefined => if jsstring_eqb k key then Of v else Undefined
      end
  end.

(** The index a property key denotes: a digit sequence without a leading 0,
    or 0 itself. *)
Definition index_of_key (key : jsstring) : option nat :=
  match key with
  | [] => None
  | c :: key' =>
      if (c =? 48) && negb (length key' =? 0)%nat then None
      else if forallb is_digit key then
        let '(_, v, _) := parse_digits key 0 0 in Some (Z.to_nat v)
      else None
  end.

Definition number_of_nat (n : nat) : Number.number :=
  Number.of_decimal (Number.Decimal false (Z.of_nat n) 0).

(** [o[key]] for a value [o] that is neither [undefined] nor [null], and a
    key that names no member of the built-in prototypes (the source reads
    [choices], [0], [delta] and [content]): the own property, if any. *)
Definition get (o : json) (key : jsstring) : value :=
  match o with
  | JObj ms => lookup key ms
  | JArr vs =>
      match index_of_key key with
      | Some i => match nth_error vs i with Some v => Of v | None => Undefined end
      | None =>
          if jsstring_eqb key (lit "length")
          then Of (JNum (number_of_nat (length vs))) else Undefined
      end
  | JStr str =>
      match index_of_key key with
      | Some i =>
          match nth_error str i with Some c => Of (JStr [c]) | None => Undefined end
      | None =>
          if jsstring_eqb key (lit "length")
          then Of (JNum (number_of_nat (length str))) else Undefined
      end
  | JNum _ | JBool _ | JNull => Undefined
  end.

(** [o.key]: a TypeError ([None]) when [o] is [undefined] or [null]. *)
Definition member (o : value) (key : jsstring) : option value :=
  match o with
  | Undefined | Of JNull => None
  | Of j => Some (get j key)
  end.

(** [o?.key] and [o?.[key]]: [undefined] when [o] is [undefined] or [null]. *)
Definition optional_member (o : value) (key : jsstring) : value :=
  match o with
  | Undefined | Of JNull => Undefined
  | Of j => get j key
  end.

(** [ToBoolean] *)
Definition to_boolean (v : value) : bool :=
  match v with
  | Undefined | Of JNull => false
  | Of (JBool b) => b
  | Of (JNum n) => Number.to_boolean n
  | Of (JStr str) => negb (length str =? 0)%nat
  | Of (JArr _) | Of (JObj _) => true
  end.

(** [v || ""] *)
Definition or_empty (v : value) : value :=
  if to_boolean v then v else Of (JStr []).

Definition has_own (key : jsstring) (ms : list (jsstring * json)) : bool :=
  existsb (fun kv => jsstring_eqb (fst kv) key) ms.

(** [ToString] of a parsed value; [None] is a TypeError.  An ordinary object
    converts through [Object.prototype.toString], unless a member named
    toString (never callable in a parsed text) shadows it: then no method
    yields a primitive.  An array converts through [Array.prototype.join]. *)
Fixpoint json_to_string (j : json) : option jsstring :=
  match j with
  | JNull => Some (lit "null")
  | JBool true => Some (lit "true")
  | JBool false => Some (lit "false")
  | JNum n => Some (Number.to_string n)
  | JStr str => Some str
  | JArr vs =>
      (fix join (l : list json) : option jsstring :=
         match l with
         | [] => Some []
         | v :: l' =>
             let item :=
               match v with
               | JNull => Some []
               | _ => json_to_string v
               end in
             match item, l' with
             | None, _ => None
             | Some a, [] => Some a
             | Some a, _ :: _ =>
                 match join l' with
                 | Some b => Some (a ++ lit "," ++ b)
                 | None => None
                 end
             end
         end) vs
  | JObj ms =>
      if has_own (lit "toString") ms then None
      else Some (lit "[object Object]")
  end.

Definition to_string (v : value) : option jsstring :=
  match v with
  | Undefined => Some (lit "undefined")
  | Of j => json_to_string j
  end.

End Value.

(* ================================================================== *)
(** ** Thrown values *)

Module Err.

(** An Error object: its [name] and [message]. *)
Record error := Error { name : jsstring; message : jsstring }.

(** [new Error(message)] *)
Definition new_Error (msg : jsstring) : error := Error (lit "Error") msg.

(** [Error.prototype.toString] *)
Definition to_string (e : error) : jsstring :=
  match name e, message e with
  | [], msg => msg
  | nm, [] => nm
  | nm, msg => nm ++ lit ": " ++ msg
  end.

End Err.

(* ================================================================== *)
(** ** The component: [getAiInsights] of src/App.tsx *)

Module App.
Import RegExp JSON Value.

(** [/data:\s*({.+?})\n?/g] *)
Definition regex : RegExp.regex :=
  Seq (chars (lit "data:"))
 (Seq (Star Space)
 (Seq (Group (Seq (Atom (Char 123)) (Seq (LazyPlus Dot) (Atom (Char 125)))))
      (Opt (Atom (Char LF))))).

(** [match[1]]; group 1 takes part in every match of [regex]. *)
Definition group1 (y : mstate) : jsstring :=
  match capture y with
  | Some c => c
  | None => []
  end.

(** [parsed.choices?.[0]?.delta?.content]; [None] is a TypeError. *)
Definition content_of (parsed : json) : option value :=
  match member (Of parsed) (lit "choices") with
  | None => None
  | Some choices =>
      Some (optional_member
              (optional_member (optional_member choices (lit "0")) (lit "delta"))
              (lit "content"))
  end.

(** The body of the [try] block for one match: what it appends to
    [cleanText], or [None] when it throws. *)
Definition try_parse (jsonStr : jsstring) : option jsstring :=
  match JSON.parse jsonStr with
  | None => None
  | Some parsed =>
      match content_of parsed with
      | None => None
      | Some v => to_string (or_empty v)
      end
  end.

(** One iteration of the inner [while] loop on a match. *)
Definition on_match (jsonStr cleanText : jsstring) : jsstring :=
  if includes jsonStr (lit "[DONE]") then cleanText
  else
    match try_parse jsonStr with
    | Some content => cleanText ++ content
    | None => cleanText ++ jsonStr
    end.

(** The inner loop [while ((match = regex.exec(chunk)) !== null)]; [s] is the
    chunk from [regex.lastIndex] on. *)
Fixpoint match_loop (fuel : nat) (s cleanText : jsstring) : jsstring :=
  match fuel with
  | O => cleanText
  | S f =>
      match exec regex s with
      | None => cleanText
      | Some y => match_loop f (rest y) (on_match (group1 y) cleanText)
      end
  end.

(** The text one chunk adds to [insight].  Every match consumes at least one
    code unit, so the loop runs at most [length chunk] times. *)
Definition clean_text (chunk : jsstring) : jsstring :=
  match_loop (S (length chunk)) chunk [].

(** What [reader.read()] delivers, one after the other. *)
Inductive stream :=
| Value (value : list TextDecoder.byte) (next : stream)   (* done: false *)
| Done                                                    (* done: true *)
| ReadError (e : Err.error).                              (* a rejection *)

(** The outcome of [fetch]. *)
Record response := Response { ok : bool; body : option stream }.

Inductive fetch_result :=
| Fulfilled (r : response)
| Rejected (e : Err.error).

(** The React state the function writes. *)
Record state := State { insight : jsstring; loading : bool }.

Definition setInsight (f : jsstring -> jsstring) (st : state) : state :=
  State (f (insight st)) (loading st).

Definition setLoading (b : bool) (st : state) : state :=
  State (insight st) b.

(** One iteration of the outer loop on a delivered chunk. *)
Definition on_chunk (value : list TextDecoder.byte) (st : state) : state :=
  let chunk := TextDecoder.decode value in
  let cleanText := clean_text chunk in
  setInsight (fun prev => prev ++ cleanText) st.

(** The outer loop [while (true)]: the state when it is left, and the error
    if it was left by an exception. *)
Fixpoint read_loop (reader : stream) (st : state) : state * option Err.error :=
  match reader with
  | Done => (st, None)
  | ReadError e => (st, Some e)
  | Value value next => read_loop next (on_chunk value st)
  end.

(** The [try] block. *)
Definition try_block (r : fetch_result) (st : state)
    : state * option Err.error :=
  match r with
  | Rejected e => (st, Some e)
  | Fulfilled response =>
      if negb (ok response)
      then (st, Some (Err.new_Error (lit "Backend unreachable")))
      else
        match body response with
        | None =>
            (st, Some (Err.new_Error
               (lit "ReadableStream not yet supported or empty response")))
        | Some reader => read_loop reader st
        end
  end.

(** How a session ended: CLOSED when the [try] block ran to its end, FAILED
    when the [catch] block ran, with the text of what was thrown. *)
Inductive terminal_state :=
| CLOSED
| FAILED (description : jsstring).

(** [getAiInsights], started in state [st0] with the given behaviour of the
    backend: the state it leaves and how the session ended. *)
Definition getAiInsights (r : fetch_result) (st0 : state)
    : state * terminal_state :=
  let st1 := setInsight (fun _ => []) (setLoading true st0) in
  let (st2, thrown) := try_block r st1 in
  match thrown with
  | None => (setLoading false st2, CLOSED)
  | Some err =>
      let st3 := setInsight (fun _ => lit "Error: " ++ Err.to_string err) st2 in
      (setLoading false st3, FAILED (Err.to_string err))
  end.

(** A backend that answers with success and delivers the given chunks. *)
Fixpoint stream_of (chunks : list (list TextDecoder.byte)) : stream :=
  match chunks with
  | [] => Done
  | c :: cs => Value c (stream_of cs)
  end.

Definition delivers (chunks : list (list TextDecoder.byte)) : fetch_result :=
  Fulfilled (Response true (Some (stream_of chunks))).

Definition initial : state := State [] false.

(** The text on the screen after a session over the given chunks.  Chunks
    are byte sequences; an ASCII literal is its own byte sequence. *)
Definition output (chunks : list (list TextDecoder.byte)) : jsstring :=
  insight (fst (getAiInsights (delivers chunks) initial)).

End App.

(* ================================================================== *)
(** ** String and Array methods of the second component

    [String.prototype.split] with a string separator that is not empty,
    [String.prototype.replace] with the pattern [/\n/g] and the empty
    replacement, and [Array.prototype.join]. *)

Module Str.

(** The search of [split] for the next separator: the text before it and,
    if there is one, the text after it. *)
Fixpoint until_sep (sep s : jsstring) : jsstring * option jsstring :=
  if starts_with sep s then ([], Some (skipn (length sep) s))
  else
    match s with
    | [] => ([], None)
    | c :: s' => let (piece, r) := until_sep sep s' in (c :: piece, r)
    end.

Fixpoint split_from (fuel : nat) (sep s : jsstring) : list jsstring :=
  match fuel with
  | O => []
  | S f =>
      match until_sep sep s with
      | (piece, None) => [piece]
      | (piece, Some r) => piece :: split_from f sep r
      end
  end.

(** [s.split(sep)], [sep] not empty: every separator found takes at least
    one code unit, so there are at most [length s] of them. *)
Definition split (sep s : jsstring) : list jsstring :=
  split_from (S (length s)) sep s.

(** [line.replace(/\n/g, "")]: every line feed is removed. *)
Definition replace_lf (line : jsstring) : jsstring :=
  filter (fun c => negb (c =? LF)) line.

(** [pieces.join(sep)] for an array of strings. *)
Fixpoint join (sep : jsstring) (pieces : list jsstring) : jsstring :=
  match pieces with
  | [] => []
  | [p] => p
  | p :: ps => p ++ sep ++ join sep ps
  end.

(** [!line] for a string: true for the empty string only. *)
Definition is_empty (line : jsstring) : bool :=
  match line with
  | [] => true
  | _ :: _ => false
  end.

End Str.

(* ================================================================== *)
(** ** The second component of src/App.tsx: [getAiInsights] with
       [split], [map] and [join]

    The file holds a second [App] whose [getAiInsights] differs from the
    first in the body of the read loop only: it removes the token [data:]
    and the line feeds from the chunk instead of matching a pattern. *)

Module App2.
Import App Str.

(** [chunk.split("data:").map(line => ...).join("")] *)
Definition clean_text (chunk : jsstring) : jsstring :=
  join []
    (map (fun line => if is_empty line then [] else replace_lf line)
         (split (lit "data:") chunk)).

(** One iteration of the read loop on a delivered chunk. *)
Definition on_chunk (value : list TextDecoder.byte) (st : state) : state :=
  let chunk := TextDecoder.decode value in
  let cleanText := clean_text chunk in
  setInsight (fun prev => prev ++ cleanText) st.

Fixpoint read_loop (reader : stream) (st : state) : state * option Err.error :=
  match reader with
  | Done => (st, None)
  | ReadError e => (st, Some e)
  | Value value next => read_loop next (on_chunk value st)
  end.

Definition try_block (r : fetch_result) (st : state)
    : state * option Err.error :=
  match r with
  | Rejected e => (st, Some e)
  | Fulfilled response =>
      if negb (ok response)
      then (st, Some (Err.new_Error (lit "Backend unreachable")))
      else
        match body response with
        | None =>
            (st, Some (Err.new_Error
               (lit "ReadableStream not yet supported or empty response")))
        | Some reader => read_loop reader st
        end
  end.

Definition getAiInsights (r : fetch_result) (st0 : state)
    : state * terminal_state :=
  let st1 := setInsight (fun _ => []) (setLoading true st0) in
  let (st2, thrown) := try_block r st1 in
  match thrown with
  | None => (setLoading false st2, CLOSED)
  | Some err =>
      let st3 := setInsight (fun _ => lit "Error: " ++ Err.to_string err) st2 in
      (setLoading false st3, FAILED (Err.to_string err))
  end.

(** The text on the screen after a session over the given chunks. *)
Definition output (chunks : list (list TextDecoder.byte)) : jsstring :=
  insight (fst (getAiInsights (delivers chunks) initial)).

End App2.

(* ================================================================== *)
(** ** What the component renders (the JSX of both components)

    The parts of the returned element that depend on the state: the screen,
    the loading indicator, the two buttons and the status light.  A disabled
    button does not run its [onClick] handler. *)

Module View.
Import App.

Inductive screen_display :=
| AnalysisText (text : jsstring)     (* [<div className="analysis-text">] *)
| PlaceholderText.                   (* [<div className="placeholder-text">] *)

Record view := View {
  display : screen_display;
  loading_indicator : bool;          (* [loading && <span ...>] *)
  analyze_class : jsstring;
  analyze_disabled : bool;
  clear_disabled : bool;
  indicator_class : jsstring
}.

Definition render (st : state) : view :=
  View
    (match insight st with
     | [] => PlaceholderText
     | _ :: _ => AnalysisText (insight st)
     end)
    (loading st)
    (lit "atm-button analyze-btn " ++ (if loading st then lit "loading" else []))
    (loading st)
    (loading st)
    (lit "indicator " ++ (if negb (loading st) then lit "active" else [])).

(** A click on CLEAR: [onClick={() => setInsight("")}]. *)
Definition click_clear (st : state) : state :=
  if clear_disabled (render st) then st else setInsight (fun _ => []) st.

(** A click on ANALYZE with the given behaviour of the backend, for either
    component's [getAiInsights]: the state when the session it starts has
    run to its end. *)
Definition click_analyze
    (run : fetch_result -> state -> state * terminal_state)
    (r : fetch_result) (st : state) : state :=
  if analyze_disabled (render st) then st else fst (run r st).

End View.

(* ================================================================== *)
(** ** Frames and deltas

    The vocabulary of the specification, read off the component: the frames
    of a chunk are the values of [match[1]] in the successive iterations of
    the inner loop, the delta of a frame is what its iteration appends to
    [cleanText]. *)

Module Frames.
Import RegExp App.

Fixpoint frames_from (fuel : nat) (s : jsstring) : list jsstring :=
  match fuel with
  | O => []
  | S f =>
      match exec regex s with
      | None => []
      | Some y => group1 y :: frames_from f (rest y)
      end
  end.

Definition frames (chunk : jsstring) : list jsstring :=
  frames_from (S (length chunk)) chunk.

Definition delta (jsonStr : jsstring) : jsstring := on_match jsonStr [].

Definition sentinel : jsstring := lit "[DONE]".

(** *** The pattern of the source, read directly

    [frame_at s] is what one attempt of [regex] at the start of [s] amounts
    to (lemma [match_here_regex]): the capture and the rest of the input. *)

Fixpoint drop_ws (s : jsstring) : jsstring :=
  match s with
  | c :: s' => if is_white_space c then drop_ws s' else s
  | [] => []
  end.

(** The text up to the first closing brace, which no line terminator may
    precede, and the text after that brace. *)
Fixpoint find_close (s : jsstring) : option (jsstring * jsstring) :=
  match s with
  | [] => None
  | c :: s' =>
      if c =? 125 then Some ([], s')
      else if is_line_terminator c then None
      else
        match find_close s' with
        | Some (b, r) => Some (c :: b, r)
        | None => None
        end
  end.

Definition drop_lf (s : jsstring) : jsstring :=
  match s with
  | c :: s' => if c =? LF then s' else s
  | [] => []
  end.

Definition frame_at (s : jsstring) : option (jsstring * jsstring) :=
  if starts_with (lit "data:") s then
    match drop_ws (skipn 5 s) with
    | o :: c :: s3 =>
        if (o =? 123) && negb (is_line_terminator c) then
          match find_close s3 with
          | Some (b, r) => Some (o :: c :: b ++ [125], drop_lf r)
          | None => None
          end
        else None
    | _ => None
    end
  else None.

Fixpoint next_frame (s : jsstring) : option (jsstring * jsstring) :=
  match frame_at s with
  | Some fr => Some fr
  | None =>
      match s with
      | [] => None
      | _ :: s' => next_frame s'
      end
  end.

(** The result of an attempt as a match state. *)
Definition mstate_of (fr : jsstring * jsstring) : mstate :=
  MState (snd fr) (Some (fst fr)).

(** The shape of a frame: an opening brace, one code unit that is no line
    terminator, code units that are neither line terminators nor closing
    braces, a closing brace. *)
Definition braced (jsonStr : jsstring) : Prop :=
  exists c b,
    jsonStr = 123 :: c :: b ++ [125] /\
    is_line_terminator c = false /\
    forallb (fun c => negb (c =? 125) && negb (is_line_terminator c)) b = true.

(** A text that ends with a closing brace and a line feed, as a chunk does
    that ends right after a frame line. *)
Inductive ends_frame : jsstring -> Prop :=
| ends_here : ends_frame [125; LF]
| ends_later (c : code_unit) (s : jsstring) :
    ends_frame s -> ends_frame (c :: s).

(** An attempt that succeeded, seen from a text that goes on with [b]. *)
Definition extend (b : jsstring) (fr : jsstring * jsstring)
    : jsstring * jsstring :=
  (fst fr, snd fr ++ b).

(** A chunk that ends right after a frame line: its last bytes are those of
    a closing brace and a line feed. *)
Definition ends_after_frame_line (c : list Z) : Prop :=
  exists c0, c = c0 ++ [125; 10].

(** The text a delivered chunk adds to [insight]. *)
Definition chunk_text (value : list Z) : jsstring :=
  clean_text (TextDecoder.decode value).

End Frames.

(* ================================================================== *)
(** ** Measures for reasoning about the parser *)

Module Measure.
Import JSON.

(** The number of closing braces in a text. *)
Fixpoint closes (s : jsstring) : nat :=
  match s with
  | [] => 0
  | c :: s' => (if c =? 125 then 1 else 0) + closes s'
  end.

(** The number of objects in a parsed value. *)
Fixpoint objects (v : json) : nat :=
  match v with
  | JArr vs => list_sum (map objects vs)
  | JObj ms => S (list_sum (map (fun '(_, w) => objects w) ms))
  | _ => 0
  end.

(** The objects in the elements of an array and in the members of an
    object. *)
Definition objects_in (vs : list json) : nat := list_sum (map objects vs).

Definition objects_of (ms : list (jsstring * json)) : nat :=
  list_sum (map (fun '(_, w) => objects w) ms).

(** What a parser step leaves: no longer, and with no more closing braces. *)
Definition leaves (r s : jsstring) : Prop :=
  (length r <= length s)%nat /\ (closes r <= closes s)%nat.

(** A parser of values consumes input, and at least one closing brace for
    every object it returns. *)
Definition value_ok (pv : jsstring -> option (json * jsstring)) : Prop :=
  forall s v r,
    pv s = Some (v, r) ->
    (length r < length s)%nat /\ (objects v + closes r <= closes s)%nat.

End Measure.

(* ================================================================== *)
(** ** Vocabulary for the second component *)

Module Lines.
Import App Str.

(** A text that ends with a line feed. *)
Inductive ends_line : jsstring -> Prop :=
| ends_line_here : ends_line [LF]
| ends_line_later (c : code_unit) (s : jsstring) :
    ends_line s -> ends_line (c :: s).

(** The chunk with every separator found by [split] taken out. *)
Definition without_token (chunk : jsstring) : jsstring :=
  concat (split (lit "data:") chunk).

(** The text a delivered chunk adds to [insight] in the second component. *)
Definition chunk_text2 (value : list Z) : jsstring :=
  App2.clean_text (TextDecoder.decode value).

(** The lines [data:payload] of a well-formed chunk, each ended by a line
    feed. *)
Definition data_lines (payloads : list jsstring) : jsstring :=
  concat (map (fun p => lit "data:" ++ p ++ [LF]) payloads).

(** The text of the chunk begins with U+FEFF before the byte order mark is
    dropped. *)
Definition begins_with_bom (value : list Z) : bool :=
  match TextDecoder.process_queue TextDecoder.utf8_init value with
  | cp :: _ => cp =? 65279
  | [] => false
  end.

(** A stream that delivers the given chunks and then fails. *)
Fixpoint failing_stream (chunks : list (list Z)) (e : Err.error) : stream :=
  match chunks with
  | [] => ReadError e
  | c :: cs => Value c (failing_stream cs e)
  end.

End Lines.

(* ================================================================== *)
(** ** The states in which a session waits

    Between [setLoading(true)] and the [finally] block the function waits at
    [await fetch(...)] and at every [await reader.read()].  If the backend
    never settles, the component stays in the state it is waiting in. *)

Module Waiting.
Import App.

(** The state after [setLoading(true)] and [setInsight("")], in which the
    session waits for the answer to the fetch and for the first read. *)
Definition started (st0 : state) : state :=
  setInsight (fun _ => []) (setLoading true st0).

(** The state in which the session waits for the next read, after the
    iterations of the read loop for the chunks delivered so far;
    [on_chunk] is that of either component. *)
Definition waiting (on_chunk : list Z -> state -> state)
    (chunks : list (list Z)) (st0 : state) : state :=
  fold_left (fun st value => on_chunk value st) chunks (started st0).

End Waiting.

(* ================================================================== *)
(** ** The end-to-end scenario of the specification *)

Module Scenario.

(** The chunks, as bytes (all ASCII).  The third delivery holds two lines:
    [scenario_3a] and [scenario_3b]. *)
Definition scenario_1 : list Z :=
  quoted "data: {'choices':[{'delta':{'content':'Hel".
Definition scenario_2 : list Z := quoted "lo'}}]}" ++ [LF].
Definition scenario_3a : list Z :=
  quoted "data: {'choices':[{'delta':{'content':' world'}}]}" ++ [LF].
Definition scenario_3b : list Z := lit "data: [DONE]" ++ [LF].

End Scenario.

(* ================================================================== *)
(** ** The path of the specification *)

Module Path.
Import JSON Value.

(** The field at a path of property names, following the words of the
    specification for
    [choices[0].delta.content]: each step takes the named property of the
    value reached so far, and is absent when that value is [undefined] or
    [null] or has no such property. *)
Fixpoint field_at (path : list jsstring) (v : value) : value :=
  match path with
  | [] => v
  | key :: path' =>
      match v with
      | Undefined | Of JNull => Undefined
      | Of j => field_at path' (get j key)
      end
  end.

Definition content_path : list jsstring :=
  [lit "choices"; lit "0"; lit "delta"; lit "content"].

End Path.

Import RegExp JSON Value App Frames Measure Scenario Path TextDecoder.
Import Str View Lines Waiting.

(* ================================================================== *)
(** * Properties *)

(** ** The embedding on known inputs *)

Example decode_ascii : decode (lit "data: {}") = lit "data: {}".
Proof. reflexivity. Qed.

Example decode_two_bytes : decode [226; 130; 172] = [8364].
Proof. reflexivity. Qed.

Example decode_surrogates : decode [240; 159; 152; 128] = [55357; 56832].
Proof. reflexivity. Qed.

Example decode_bom : decode ([239; 187; 191] ++ lit "a") = lit "a".
Proof. reflexivity. Qed.

Example decode_overlong : decode [192; 128] = [65533; 65533].
Proof. reflexivity. Qed.

Example exec_first_match :
  exec regex (lit "id: 1" ++ [LF] ++ lit "data:  {a}{b}" ++ [LF] ++ lit "x") =
  Some (MState (lit "{b}" ++ [LF] ++ lit "x") (Some (lit "{a}"))).
Proof. reflexivity. Qed.

Example exec_takes_line_feed :
  exec regex (lit "data:{a}" ++ [LF; LF]) = Some (MState [LF] (Some (lit "{a}"))).
Proof. reflexivity. Qed.

Example exec_needs_one_character :
  exec regex (lit "data: {}") = None /\
  exec regex (lit "data: {}}") = Some (MState [] (Some (lit "{}}"))).
Proof. split; reflexivity. Qed.

Example exec_white_space_spans_lines :
  exec regex (lit "data:" ++ [LF; 9; 160] ++ lit "{a}") =
  Some (MState [] (Some (lit "{a}"))).
Proof. reflexivity. Qed.

Example parse_nested :
  JSON.parse (quoted "{'choices':[{'delta':{'content':'Hi'}}]}") =
  Some (JObj [(lit "choices",
    JArr [JObj [(lit "delta", JObj [(lit "content", JStr (lit "Hi"))])]])]).
Proof. reflexivity. Qed.

Example parse_escapes :
  JSON.parse (quoted "['a\u0041\n\/']") = Some (JArr [JStr [97; 65; 10; 47]]).
Proof. reflexivity. Qed.

Example parse_rejects :
  map JSON.parse
    [lit "[1,]"; lit "01"; lit "1."; lit "-"; lit "truex"; quoted "{'a':1,}";
     quoted "{a:1}"; lit ""; lit "[1 2]"; quoted "'a"] =
  repeat None 10.
Proof. reflexivity. Qed.

Example parse_numbers :
  match JSON.parse (lit "[0.1, 1e21, 1E-7, -2.50, 123456789012345678901, 5e-324, 1e999, -0, 2e-324]") with
  | Some (JArr vs) =>
      map (fun v => match v with JNum n => Number.to_string n | _ => [] end) vs
  | _ => []
  end =
  [lit "0.1"; lit "1e+21"; lit "1e-7"; lit "-2.5"; lit "123456789012345680000";
   lit "5e-324"; lit "Infinity"; lit "0"; lit "0"].
Proof. vm_compute. reflexivity. Qed.

Example try_parse_content :
  try_parse (quoted "{'choices':[{'delta':{'content':'Hi'}}]}") = Some (lit "Hi").
Proof. reflexivity. Qed.

Example try_parse_last_member_wins :
  try_parse (quoted "{'choices':[],'choices':[{'delta':{'content':'x'}}]}") =
  Some (lit "x").
Proof. reflexivity. Qed.

Example try_parse_values :
  map try_parse
    [quoted "{'choices':[{'delta':{'content':12.50}}]}";
     quoted "{'choices':[{'delta':{'content':0}}]}";
     quoted "{'choices':[{'delta':{'content':[1,null,[2],{}]}}]}";
     quoted "{'choices':[{'delta':{'content':{'toString':1}}}]}";
     quoted "{'choices':'abc'}";
     quoted "{'choices':null}";
     lit "null"] =
  [Some (lit "12.5"); Some []; Some (lit "1,,2,[object Object]"); None;
   Some []; Some []; None].
Proof. vm_compute. reflexivity. Qed.

Example failed_fetch :
  getAiInsights (Rejected (Err.Error (lit "TypeError") (lit "Failed to fetch")))
    initial =
  (State (lit "Error: TypeError: Failed to fetch") false,
   FAILED (lit "TypeError: Failed to fetch")).
Proof. reflexivity. Qed.

Example failed_read_replaces_text :
  getAiInsights
    (Fulfilled (Response true (Some
       (Value (lit "data: {x}") (ReadError (Err.new_Error (lit "network error")))))))
    initial =
  (State (lit "Error: Error: network error") false,
   FAILED (lit "Error: network error")).
Proof. reflexivity. Qed.

(** ** The regular expression *)

Lemma m_chars (p : jsstring) (r : RegExp.regex) (s : jsstring) cap k :
  m (Seq (chars p) r) (MState s cap) k =
  if starts_with p s then m r (MState (skipn (length p) s) cap) k else None.
Proof.
  revert s; induction p as [|c p IH]; intros s; [reflexivity|].
  destruct s as [|d s]; [reflexivity|].
  cbn [chars starts_with length skipn].
  cbn [m rest capture atom_matches].
  rewrite Z.eqb_sym.
  destruct (c =? d); cbn [andb]; [|reflexivity].
  exact (IH s).
Qed.

Lemma star_space_skip (s : jsstring) cap (k : continuation) :
  (forall c s', is_white_space c = true -> k (MState (c :: s') cap) = None) ->
  star_m Space s cap k = k (MState (drop_ws s) cap).
Proof.
  intros Hk; induction s as [|c s IH]; [reflexivity|].
  cbn [star_m drop_ws atom_matches].
  destruct (is_white_space c) eqn:E; [|reflexivity].
  rewrite IH. destruct (k (MState (drop_ws s) cap)) eqn:K; [reflexivity|].
  now apply Hk.
Qed.

Lemma lazy_dot_close (s : jsstring) cap (k : continuation) :
  (forall s', (exists r, s' = 125 :: r) \/ k (MState s' cap) = None) ->
  (forall r, k (MState (125 :: r) cap) <> None) ->
  lazy_star_m Dot s cap k =
  match find_close s with
  | Some (b, r) => k (MState (125 :: r) cap)
  | None => None
  end.
Proof.
  intros Hfail Hok; induction s as [|c s IH].
  - cbn. destruct (Hfail []) as [[r Hr]|Hn]; [discriminate|]. now rewrite Hn.
  - cbn [lazy_star_m find_close atom_matches].
    destruct (c =? 125) eqn:E.
    + apply Z.eqb_eq in E; subst c.
      destruct (k (MState (125 :: s) cap)) eqn:K; [reflexivity|].
      now elim (Hok s).
    + destruct (Hfail (c :: s)) as [[r Hr]|Hn].
      * injection Hr as -> _. discriminate.
      * rewrite Hn.
        destruct (is_line_terminator c); cbn [negb]; [reflexivity|].
        rewrite IH. now destruct (find_close s) as [[b r]|].
Qed.

Lemma consumed_app (p r : jsstring) : consumed (p ++ r) r = p.
Proof.
  unfold consumed. rewrite length_app.
  replace (length p + length r - length r)%nat with (length p) by lia.
  rewrite firstn_app, Nat.sub_diag, firstn_all. cbn. apply app_nil_r.
Qed.

Lemma find_close_split (s b r : jsstring) :
  find_close s = Some (b, r) -> s = b ++ 125 :: r.
Proof.
  revert b r; induction s as [|c s IH]; intros b r; cbn; [discriminate|].
  destruct (c =? 125) eqn:E.
  - intros [= <- <-]. apply Z.eqb_eq in E. now subst.
  - destruct (is_line_terminator c); [discriminate|].
    destruct (find_close s) as [[b' r']|]; [|discriminate].
    intros [= <- <-]. cbn. f_equal. now apply IH.
Qed.

(** One attempt of the pattern of the source at the start of [s]. *)
Lemma match_here_regex (s : jsstring) :
  match_here regex s = option_map mstate_of (frame_at s).
Proof.
  unfold match_here, regex, frame_at.
  rewrite m_chars.
  destruct (starts_with (lit "data:") s); [|reflexivity].
  change (length (lit "data:")) with 5%nat.
  cbn [m rest capture].
  rewrite star_space_skip.
  2:{ intros c s' Hc. cbn. destruct (c =? 123) eqn:E; [|reflexivity].
      apply Z.eqb_eq in E; subst c. discriminate. }
  destruct (drop_ws (skipn 5 s)) as [|o [|c s3]] eqn:D; cbn [rest capture].
  - reflexivity.
  - cbn. now destruct (o =? 123).
  - cbn [atom_matches].
    destruct (o =? 123) eqn:E; [|reflexivity].
    apply Z.eqb_eq in E; subst o.
    destruct (is_line_terminator c) eqn:L; cbn [negb andb]; [reflexivity|].
    rewrite lazy_dot_close.
    + destruct (find_close s3) as [[b r]|] eqn:F; [|reflexivity].
      apply find_close_split in F. subst s3.
      cbn [rest capture atom_matches]. rewrite Z.eqb_refl.
      replace (123 :: c :: b ++ 125 :: r)
        with ((123 :: c :: b ++ [125]) ++ r)
        by (cbn; now rewrite <- app_assoc).
      rewrite consumed_app.
      unfold mstate_of, drop_lf; cbn.
      destruct r as [|d r]; [reflexivity|].
      cbn. now destruct (d =? LF).
    + intros s'. destruct s' as [|d s']; [now right|].
      cbn. destruct (d =? 125) eqn:E; [|now right].
      apply Z.eqb_eq in E; subst d. left. now exists s'.
    + intros r. cbn.
      destruct r as [|d r]; [discriminate|].
      cbn. now destruct (d =? LF).
Qed.

Lemma exec_regex (s : jsstring) :
  exec regex s = option_map mstate_of (next_frame s).
Proof.
  induction s as [|c s IH]; cbn [exec next_frame]; rewrite match_here_regex.
  - now destruct (frame_at []).
  - destruct (frame_at (c :: s)); [reflexivity|]. exact IH.
Qed.

Lemma starts_with_split (p s : jsstring) :
  starts_with p s = true -> s = p ++ skipn (length p) s.
Proof.
  revert s; induction p as [|c p IH]; intros [|d s]; cbn; try easy.
  intros H. apply andb_prop in H as [E H]. apply Z.eqb_eq in E. subst d.
  f_equal. now apply IH.
Qed.

Lemma starts_with_app (p s : jsstring) : starts_with p (p ++ s) = true.
Proof. induction p as [|c p IH]; cbn; [reflexivity|]. now rewrite Z.eqb_refl. Qed.

Lemma drop_ws_split (s : jsstring) :
  exists ws, s = ws ++ drop_ws s /\ forallb is_white_space ws = true.
Proof.
  induction s as [|c s (ws & E & F)]; [now exists []|].
  cbn. destruct (is_white_space c) eqn:W.
  - exists (c :: ws). cbn. rewrite W, F. now rewrite <- E.
  - now exists [].
Qed.

Lemma find_close_body (s b r : jsstring) :
  find_close s = Some (b, r) ->
  forallb (fun c => negb (c =? 125) && negb (is_line_terminator c)) b = true.
Proof.
  revert b r; induction s as [|c s IH]; intros b r; cbn; [discriminate|].
  destruct (c =? 125) eqn:E; [now intros [= <- <-]|].
  destruct (is_line_terminator c) eqn:L; [discriminate|].
  destruct (find_close s) as [[b' r']|]; [|discriminate].
  intros [= <- <-]. cbn. rewrite E, L. cbn. now apply (IH b' r').
Qed.

Lemma frame_at_shape (s jsonStr r : jsstring) :
  frame_at s = Some (jsonStr, r) ->
  exists ws tail,
    s = lit "data:" ++ ws ++ jsonStr ++ tail /\
    forallb is_white_space ws = true /\
    braced jsonStr /\
    r = drop_lf tail.
Proof.
  unfold frame_at. destruct (starts_with (lit "data:") s) eqn:P; [|discriminate].
  apply starts_with_split in P. change (length (lit "data:")) with 5%nat in P.
  destruct (drop_ws_split (skipn 5 s)) as (ws & E & W).
  destruct (drop_ws (skipn 5 s)) as [|o [|c s3]]; try discriminate.
  destruct (o =? 123) eqn:O; [|discriminate]. apply Z.eqb_eq in O; subst o.
  destruct (is_line_terminator c) eqn:L; [discriminate|]. cbn [negb andb].
  destruct (find_close s3) as [[b t]|] eqn:F; [|discriminate].
  intros [= <- <-]. exists ws, t. repeat split; trivial.
  - rewrite P at 1. rewrite E. apply find_close_split in F. subst s3.
    cbn. now rewrite <- app_assoc.
  - exists c, b. repeat split; trivial. now apply find_close_body in F.
Qed.

Lemma next_frame_shape (s jsonStr r : jsstring) :
  next_frame s = Some (jsonStr, r) ->
  exists pre ws tail,
    s = pre ++ lit "data:" ++ ws ++ jsonStr ++ tail /\
    forallb is_white_space ws = true /\
    braced jsonStr /\
    r = drop_lf tail.
Proof.
  induction s as [|c s IH]; cbn [next_frame].
  - destruct (frame_at []) eqn:F; [|discriminate]. intros [= ->].
    apply frame_at_shape in F as (ws & tail & E & H). now exists [], ws, tail.
  - destruct (frame_at (c :: s)) eqn:F.
    + intros [= ->].
      apply frame_at_shape in F as (ws & tail & E & H). now exists [], ws, tail.
    + intros H. apply IH in H as (pre & ws & tail & E & H).
      exists (c :: pre), ws, tail. split; [|exact H]. cbn. now rewrite E.
Qed.

Lemma drop_lf_length (s : jsstring) : (length (drop_lf s) <= length s)%nat.
Proof. destruct s as [|c s]; cbn; [lia|]. destruct (c =? LF); cbn; lia. Qed.

Lemma next_frame_shorter (s jsonStr r : jsstring) :
  next_frame s = Some (jsonStr, r) -> (length r < length s)%nat.
Proof.
  intros H. apply next_frame_shape in H as (pre & ws & tail & -> & _ & B & ->).
  destruct B as (c & b & -> & _).
  pose proof (drop_lf_length tail).
  rewrite !length_app. cbn. rewrite !length_app. cbn. lia.
Qed.

(** The loop of [frames] does not run out of iterations. *)
Lemma frames_from_enough (f1 f2 : nat) (s : jsstring) :
  (length s < f1)%nat -> (length s < f2)%nat ->
  frames_from f1 s = frames_from f2 s.
Proof.
  revert f2 s; induction f1 as [|f1 IH]; intros f2 s H1 H2; [lia|].
  destruct f2 as [|f2]; [lia|].
  cbn [frames_from]. rewrite exec_regex.
  destruct (next_frame s) as [[j r]|] eqn:N; [|reflexivity].
  cbn. f_equal. apply next_frame_shorter in N. apply IH; lia.
Qed.

Lemma frames_unfold (s : jsstring) :
  frames s =
  match next_frame s with
  | Some (jsonStr, r) => jsonStr :: frames r
  | None => []
  end.
Proof.
  unfold frames at 1. cbn [frames_from]. rewrite exec_regex.
  destruct (next_frame s) as [[j r]|] eqn:N; [|reflexivity].
  unfold frames, option_map, mstate_of, group1. cbn [capture rest fst snd].
  f_equal. apply next_frame_shorter in N.
  apply frames_from_enough; lia.
Qed.

Lemma on_match_delta (jsonStr cleanText : jsstring) :
  on_match jsonStr cleanText = cleanText ++ delta jsonStr.
Proof.
  unfold delta, on_match.
  destruct (includes jsonStr (lit "[DONE]")); [now rewrite app_nil_r|].
  now destruct (try_parse jsonStr).
Qed.

Lemma match_loop_frames (fuel : nat) (s cleanText : jsstring) :
  match_loop fuel s cleanText =
  cleanText ++ concat (map delta (frames_from fuel s)).
Proof.
  revert s cleanText; induction fuel as [|f IH]; intros s t; cbn.
  - now rewrite app_nil_r.
  - destruct (exec regex s) as [y|]; cbn; [|now rewrite app_nil_r].
    now rewrite IH, on_match_delta, app_assoc.
Qed.

(** The text a chunk adds is the concatenation of the deltas of its frames. *)
Lemma clean_text_frames (chunk : jsstring) :
  clean_text chunk = concat (map delta (frames chunk)).
Proof. unfold clean_text. now rewrite match_loop_frames. Qed.

Lemma frames_braced (chunk jsonStr : jsstring) :
  In jsonStr (frames chunk) -> braced jsonStr.
Proof.
  remember (length chunk) as n eqn:Hn.
  revert chunk Hn; induction n as [n IH] using lt_wf_ind; intros chunk Hn.
  rewrite frames_unfold.
  destruct (next_frame chunk) as [[j r]|] eqn:N; [|contradiction].
  intros [<-|H].
  - now apply next_frame_shape in N as (pre & ws & tail & _ & _ & B & _).
  - apply next_frame_shorter in N.
    apply (IH (length r)) with (chunk := r); trivial. lia.
Qed.

(** ** The session *)

Lemma read_loop_stream_of (chunks : list (list Z)) (st : state) :
  read_loop (stream_of chunks) st =
  (State (insight st ++ concat (map chunk_text chunks)) (loading st), None).
Proof.
  revert st; induction chunks as [|c cs IH]; intros st; cbn.
  - rewrite app_nil_r. now destruct st.
  - rewrite IH. cbn. now rewrite <- app_assoc.
Qed.

Lemma getAiInsights_delivers (chunks : list (list Z)) (st0 : state) :
  getAiInsights (delivers chunks) st0 =
  (State (concat (map chunk_text chunks)) false, CLOSED).
Proof.
  unfold getAiInsights, delivers, try_block. cbn [ok body negb].
  now rewrite read_loop_stream_of.
Qed.

Lemma output_chunks (chunks : list (list Z)) :
  output chunks = concat (map chunk_text chunks).
Proof. unfold output. now rewrite getAiInsights_delivers. Qed.

Lemma output_app (chunks1 chunks2 : list (list Z)) :
  output (chunks1 ++ chunks2) = output chunks1 ++ output chunks2.
Proof. now rewrite !output_chunks, map_app, concat_app. Qed.

(** Frames occur in the chunk, each after the token [data:] and white space. *)
Lemma frames_located (chunk jsonStr : jsstring) :
  In jsonStr (frames chunk) ->
  exists pre ws post,
    chunk = pre ++ lit "data:" ++ ws ++ jsonStr ++ post /\
    forallb is_white_space ws = true /\
    braced jsonStr.
Proof.
  remember (length chunk) as n eqn:Hn.
  revert chunk Hn; induction n as [n IH] using lt_wf_ind; intros chunk Hn.
  rewrite frames_unfold.
  destruct (next_frame chunk) as [[j r]|] eqn:N; [|contradiction].
  pose proof (next_frame_shorter _ _ _ N) as Hlt.
  apply next_frame_shape in N as (pre & ws & tail & E & W & B & R).
  intros [<-|H].
  - now exists pre, ws, tail.
  - apply (IH (length r)) with (chunk := r) in H; [|lia|reflexivity].
    destruct H as (pre' & ws' & post' & E' & W' & B').
    assert (exists x, tail = x ++ r) as [x Hx].
    { subst r. destruct tail as [|c t]; [now exists []|].
      cbn. destruct (c =? LF); [now exists [c]|now exists []]. }
    exists (pre ++ lit "data:" ++ ws ++ j ++ x ++ pre'), ws', post'.
    repeat split; trivial.
    rewrite E, Hx, E'. now rewrite <- !app_assoc.
Qed.

Lemma braced_has_braces (jsonStr : jsstring) :
  braced jsonStr -> In 123 jsonStr /\ In 125 jsonStr.
Proof.
  intros (c & b & -> & _). split; [now left|].
  right. right. apply in_or_app. right. now left.
Qed.

Lemma field_at_undefined (path : list jsstring) :
  field_at path Undefined = Undefined.
Proof. now destruct path. Qed.

Lemma field_at_null (path : list jsstring) :
  path <> [] -> field_at path (Of JNull) = Undefined.
Proof. now destruct path. Qed.

Lemma optional_member_field (v : value) (key : jsstring) (path : list jsstring) :
  field_at (key :: path) v = field_at path (optional_member v key).
Proof.
  cbn. destruct v as [|[]]; cbn; trivial; now rewrite field_at_undefined.
Qed.

Lemma content_of_object (ms : list (jsstring * json)) :
  content_of (JObj ms) = Some (field_at content_path (Of (JObj ms))).
Proof.
  unfold content_of, content_path. cbn [member].
  now rewrite !optional_member_field.
Qed.

(** No frame holds a closing brace between its second code unit and its
    last one, nor any line terminator. *)
Lemma frames_stop_at_first_close (chunk jsonStr : jsstring) :
  In jsonStr (frames chunk) ->
  exists c b,
    jsonStr = 123 :: c :: b ++ [125] /\ ~ In 125 b /\
    existsb is_line_terminator jsonStr = false.
Proof.
  intros H. apply frames_braced in H as (c & b & -> & L & B).
  exists c, b. split; [reflexivity|]. split.
  - intros I. rewrite forallb_forall in B. specialize (B _ I). discriminate.
  - cbn. rewrite L. cbn. rewrite existsb_app. cbn.
    rewrite orb_false_r. apply not_true_is_false. intros E.
    apply existsb_exists in E as (x & I & Lx).
    rewrite forallb_forall in B. specialize (B _ I).
    rewrite Lx in B. now rewrite andb_false_r in B.
Qed.

Lemma find_close_app (b r : jsstring) :
  forallb (fun c => negb (c =? 125) && negb (is_line_terminator c)) b = true ->
  find_close (b ++ 125 :: r) = Some (b, r).
Proof.
  induction b as [|c b IH]; cbn; [reflexivity|].
  intros H. apply andb_prop in H as [H1 H2]. apply andb_prop in H1 as [E L].
  destruct (c =? 125); [discriminate|].
  destruct (is_line_terminator c); [discriminate|].
  now rewrite IH.
Qed.

Lemma frame_at_data_line (jsonStr tail : jsstring) :
  braced jsonStr ->
  frame_at (lit "data: " ++ jsonStr ++ tail) = Some (jsonStr, drop_lf tail).
Proof.
  intros (c & b & -> & L & B). unfold frame_at. cbn.
  rewrite L. cbn. rewrite <- app_assoc. cbn. now rewrite find_close_app.
Qed.

Lemma frames_nil : frames [] = [].
Proof. reflexivity. Qed.

Lemma next_frame_here (s : jsstring) (fr : jsstring * jsstring) :
  frame_at s = Some fr -> next_frame s = Some fr.
Proof. intros H. destruct s; cbn [next_frame]; now rewrite H. Qed.

Lemma frames_data_line (jsonStr : jsstring) :
  braced jsonStr -> frames (lit "data: " ++ jsonStr ++ [LF]) = [jsonStr].
Proof.
  intros B. rewrite frames_unfold.
  now rewrite (next_frame_here _ _ (frame_at_data_line jsonStr [LF] B)).
Qed.

Lemma braced_not_json : braced (lit "{not-json-at-all}").
Proof. exists 110, (lit "ot-json-at-all"). now vm_compute. Qed.

Lemma delta_sentinel (jsonStr : jsstring) :
  includes jsonStr (lit "[DONE]") = true -> delta jsonStr = [].
Proof. intros H. unfold delta, on_match. now rewrite H. Qed.

Lemma concat_map_delta_filter (l : list jsstring) :
  concat (map delta l) =
  concat (map delta (filter (fun j => negb (includes j (lit "[DONE]"))) l)).
Proof.
  induction l as [|j l IH]; [reflexivity|]. cbn [concat map filter].
  destruct (includes j (lit "[DONE]")) eqn:E; cbn [negb concat map].
  - rewrite (delta_sentinel _ E). exact IH.
  - now rewrite IH.
Qed.

Lemma output_deltas (chunks : list (list Z)) :
  output chunks =
  concat (map delta
    (flat_map (fun value => frames (TextDecoder.decode value)) chunks)).
Proof.
  rewrite output_chunks.
  induction chunks as [|c cs IH]; [reflexivity|].
  cbn [map concat flat_map]. rewrite map_app, concat_app, <- IH.
  unfold chunk_text at 1. now rewrite clean_text_frames.
Qed.

(** ** Chunks that end after a frame line *)

Lemma ends_frame_app (s : jsstring) : ends_frame (s ++ [125; LF]).
Proof. induction s; cbn; now constructor. Qed.

Lemma ends_frame_tail (c : code_unit) (s : jsstring) :
  ends_frame (c :: s) -> (c = 125 /\ s = [LF]) \/ ends_frame s.
Proof. inversion 1; subst; [now left|now right]. Qed.

Lemma ends_frame_cons (c : code_unit) (s : jsstring) :
  c <> 125 -> ends_frame (c :: s) -> ends_frame s.
Proof. intros N H. now apply ends_frame_tail in H as [[-> _]|H]. Qed.

Section Split.
Variable b : jsstring.

Lemma starts_with_ends_frame (a : jsstring) :
  ends_frame a ->
  forall p, ~ In 125 p -> starts_with p (a ++ b) = starts_with p a.
Proof.
  induction 1 as [|c a E IH]; intros [|x p] N; trivial; cbn.
  - destruct (x =? 125) eqn:X; [|reflexivity].
    apply Z.eqb_eq in X. subst x. elim N. now left.
  - rewrite IH; [reflexivity|]. intros I. apply N. now right.
Qed.

Lemma skipn_ends_frame (a : jsstring) :
  ends_frame a ->
  forall p, ~ In 125 p -> starts_with p a = true ->
  ends_frame (skipn (length p) a) /\
  skipn (length p) (a ++ b) = skipn (length p) a ++ b.
Proof.
  induction 1 as [|c a E IH]; intros [|x p] N; cbn.
  - intros _. split; [constructor|reflexivity].
  - destruct (x =? 125) eqn:X; [|discriminate].
    apply Z.eqb_eq in X. subst x. elim N. now left.
  - intros _. split; [now constructor|reflexivity].
  - intros H. apply andb_prop in H as [_ H].
    apply IH; trivial. intros I. apply N. now right.
Qed.

Lemma drop_ws_ends_frame (a : jsstring) :
  ends_frame a ->
  ends_frame (drop_ws a) /\ drop_ws (a ++ b) = drop_ws a ++ b.
Proof.
  induction 1 as [|c a E IH].
  - split; [constructor|reflexivity].
  - cbn. destruct (is_white_space c); [exact IH|].
    split; [now constructor|reflexivity].
Qed.

Lemma find_close_ends_frame (s : jsstring) :
  ends_frame s ->
  find_close (s ++ b) = option_map (extend b) (find_close s) /\
  forall body r, find_close s = Some (body, r) -> r = [LF] \/ ends_frame r.
Proof.
  induction 1 as [|c s E [IH1 IH2]].
  - split; [reflexivity|]. intros body r [= <- <-]. now left.
  - cbn. destruct (c =? 125).
    + split; [reflexivity|]. intros body r [= <- <-]. now right.
    + destruct (is_line_terminator c); [now split|].
      rewrite IH1. destruct (find_close s) as [[body r]|]; [|now split].
      split; [reflexivity|]. intros body' r' [= <- <-]. now apply (IH2 body).
Qed.

Lemma drop_lf_ends_frame (r : jsstring) :
  r = [LF] \/ ends_frame r ->
  drop_lf (r ++ b) = drop_lf r ++ b /\
  (drop_lf r = [] \/ ends_frame (drop_lf r)).
Proof.
  intros [->|H]; [split; [reflexivity|now left]|].
  destruct H as [|c r H]; [split; [reflexivity|right; constructor]|].
  cbn. destruct (c =? LF); split; trivial; right; trivial. now constructor.
Qed.

Lemma frame_at_ends_frame (a : jsstring) :
  ends_frame a ->
  frame_at (a ++ b) = option_map (extend b) (frame_at a) /\
  forall jsonStr r,
    frame_at a = Some (jsonStr, r) -> r = [] \/ ends_frame r.
Proof.
  intros E. unfold frame_at.
  assert (~ In 125 (lit "data:")) as N by (vm_compute; intuition discriminate).
  rewrite (starts_with_ends_frame a E _ N).
  destruct (starts_with (lit "data:") a) eqn:P; [|now split].
  destruct (skipn_ends_frame a E _ N P) as [E1 S1].
  change (length (lit "data:")) with 5%nat in E1, S1. rewrite S1.
  destruct (drop_ws_ends_frame _ E1) as [E2 ->].
  destruct (drop_ws (skipn 5 a)) as [|o [|c s3]].
  - inversion E2.
  - inversion E2 as [|? ? E3]. inversion E3.
  - cbn [app]. destruct (o =? 123) eqn:O; [|now split].
    apply Z.eqb_eq in O. subst o.
    destruct (is_line_terminator c); cbn [negb andb]; [now split|].
    apply ends_frame_cons in E2; [|discriminate].
    apply ends_frame_tail in E2 as [[-> ->]|E2]; [now split|].
    destruct (find_close_ends_frame s3 E2) as [-> F].
    destruct (find_close s3) as [[body r]|]; [|now split].
    destruct (drop_lf_ends_frame r (F _ _ eq_refl)) as [L1 L2].
    cbn. unfold extend. cbn. rewrite L1. split; [reflexivity|].
    now intros ? ? [= <- <-].
Qed.

Lemma next_frame_ends_frame (a : jsstring) :
  a = [] \/ a = [LF] \/ ends_frame a ->
  next_frame (a ++ b) =
    match next_frame a with
    | Some fr => Some (extend b fr)
    | None => next_frame b
    end /\
  forall jsonStr r,
    next_frame a = Some (jsonStr, r) -> r = [] \/ ends_frame r.
Proof.
  induction a as [|c a IH]; intros H.
  - split; [reflexivity|discriminate].
  - assert (frame_at ((c :: a) ++ b) = option_map (extend b) (frame_at (c :: a)) /\
            (forall j r, frame_at (c :: a) = Some (j, r) ->
                         r = [] \/ ends_frame r) /\
            (a = [] \/ a = [LF] \/ ends_frame a)) as (F1 & F2 & Ha).
    { destruct H as [H|[H|H]]; [discriminate| |].
      - injection H as -> ->. repeat split; [discriminate|now left].
      - destruct (frame_at_ends_frame _ H) as [F1 F2].
        repeat split; trivial.
        apply ends_frame_tail in H as [[_ ->]|H]; tauto. }
    cbn [next_frame app]. cbn [app] in F1. rewrite F1.
    destruct (frame_at (c :: a)) as [[j r]|].
    + split; [reflexivity|]. intros ? ? [= <- <-]. now apply (F2 j).
    + cbn [option_map]. exact (IH Ha).
Qed.

(** The frames of a text that continues after a frame line are the frames
    up to the end of that line, then the frames of what follows. *)
Lemma frames_ends_frame (a : jsstring) :
  ends_frame a -> frames (a ++ b) = frames a ++ frames b.
Proof.
  remember (length a) as n eqn:Hn.
  revert a Hn; induction n as [n IH] using lt_wf_ind; intros a Hn E.
  destruct (next_frame_ends_frame a) as [N1 N2]; [tauto|].
  rewrite (frames_unfold (a ++ b)), (frames_unfold a), N1.
  destruct (next_frame a) as [[j r]|] eqn:N.
  - cbn [extend fst snd app]. f_equal.
    apply next_frame_shorter in N.
    destruct (N2 _ _ eq_refl) as [->|Er]; [reflexivity|].
    apply (IH (length r)); trivial. lia.
  - now rewrite <- frames_unfold.
Qed.

End Split.

(** ** The decoder *)

Lemma reachable_init : reachable utf8_init.
Proof. repeat split; cbn; lia. Qed.

Lemma utf8_handler_reachable (st : utf8_state) (b : Z) :
  reachable st -> reachable (fst (utf8_handler st b)).
Proof.
  intros (I & L & U). unfold utf8_handler.
  destruct (bytes_needed st =? 0) eqn:N.
  - apply Z.eqb_eq in N. rewrite (I N). cbn.
    repeat match goal with
           | |- context [if ?c then _ else _] => destruct c; cbn
           end; repeat split; cbn; lia.
  - apply Z.eqb_neq in N.
    repeat match goal with
           | |- context [if ?c then _ else _] => destruct c; cbn
           end; repeat split; cbn; lia.
Qed.

Lemma process_byte_reachable (st : utf8_state) (b : Z) :
  reachable st -> reachable (fst (process_byte st b)).
Proof.
  intros R. unfold process_byte.
  pose proof (utf8_handler_reachable st b R) as R1.
  destruct (utf8_handler st b) as [st1 r]. cbn in R1.
  destruct r; trivial.
  pose proof (utf8_handler_reachable st1 b R1) as R2.
  now destruct (utf8_handler st1 b).
Qed.

Lemma end_state_reachable (q : list Z) (st : utf8_state) :
  reachable st -> reachable (end_state st q).
Proof.
  revert st; induction q as [|b q IH]; intros st R; [exact R|].
  cbn. apply IH. now apply process_byte_reachable.
Qed.

Lemma end_state_app (q1 q2 : list Z) (st : utf8_state) :
  end_state st (q1 ++ q2) = end_state (end_state st q1) q2.
Proof. revert st; induction q1 as [|b q1 IH]; intros st; cbn; trivial. Qed.

Lemma emitted_by_app (q1 q2 : list Z) (st : utf8_state) :
  emitted_by st (q1 ++ q2) =
  emitted_by st q1 ++ emitted_by (end_state st q1) q2.
Proof.
  revert st; induction q1 as [|b q1 IH]; intros st; cbn; trivial.
  now rewrite IH, app_assoc.
Qed.

Lemma process_queue_emitted (q : list Z) (st : utf8_state) :
  process_queue st q =
  emitted_by st q ++
  (if bytes_needed (end_state st q) =? 0 then [] else [65533]).
Proof.
  revert st; induction q as [|b q IH]; intros st; cbn; [reflexivity|].
  destruct (process_byte st b) as [st' out]. cbn. now rewrite IH, app_assoc.
Qed.

(** An ASCII byte ends whatever sequence was open and is emitted itself. *)
Lemma process_byte_ascii (st : utf8_state) (b : Z) :
  reachable st -> 0 <= b <= 127 ->
  process_byte st b =
  (utf8_init, if bytes_needed st =? 0 then [b] else [65533; b]).
Proof.
  intros (I & L & U) B. unfold process_byte, utf8_handler.
  destruct (bytes_needed st =? 0) eqn:N.
  - apply Z.eqb_eq in N. rewrite (I N).
    replace ((0 <=? b) && (b <=? 127)) with true; [reflexivity|].
    symmetry. apply andb_true_intro. split; now apply Z.leb_le.
  - replace ((lower_boundary st <=? b) && (b <=? upper_boundary st))
      with false.
    + cbn.
      replace ((0 <=? b) && (b <=? 127)) with true; [reflexivity|].
      symmetry. apply andb_true_intro. split; now apply Z.leb_le.
    + symmetry. apply andb_false_intro1. apply Z.leb_gt. lia.
Qed.

Lemma strip_bom_app (x y : list Z) :
  x <> [] -> strip_bom (x ++ y) = strip_bom x ++ y.
Proof.
  destruct x as [|c x]; [easy|]. intros _. cbn. now destruct (c =? 65279).
Qed.

Lemma strip_bom_suffix (x : list Z) :
  exists pre, (pre = [] \/ pre = [65279]) /\ x = pre ++ strip_bom x.
Proof.
  destruct x as [|c x]; [exists []; split; [now left|reflexivity]|]. cbn.
  destruct (c =? 65279) eqn:E.
  - apply Z.eqb_eq in E. subst c. exists [65279]. split; [now right|reflexivity].
  - exists []. split; [now left|reflexivity].
Qed.

(** The decoder output of a chunk that ends with the bytes of a closing
    brace and a line feed, followed by more bytes. *)
Lemma process_queue_frame_end (a0 rest : list Z) :
  exists out,
    process_queue utf8_init (a0 ++ [125; 10]) = out ++ [125; 10] /\
    process_queue utf8_init ((a0 ++ [125; 10]) ++ rest) =
      (out ++ [125; 10]) ++ process_queue utf8_init rest.
Proof.
  pose proof (end_state_reachable a0 _ reachable_init) as R.
  assert (end_state utf8_init (a0 ++ [125; 10]) = utf8_init) as E.
  { rewrite end_state_app. cbn [end_state].
    rewrite (process_byte_ascii _ 125 R) by lia. cbn [fst].
    now rewrite (process_byte_ascii _ 10 reachable_init) by lia. }
  assert (exists out, emitted_by utf8_init (a0 ++ [125; 10]) = out ++ [125; 10])
    as [out O].
  { rewrite emitted_by_app. cbn [emitted_by].
    rewrite (process_byte_ascii _ 125 R) by lia. cbn [fst snd].
    rewrite (process_byte_ascii _ 10 reachable_init) by lia.
    cbn [fst snd bytes_needed utf8_init Z.eqb app].
    destruct (bytes_needed (end_state utf8_init a0) =? 0).
    - exists (emitted_by utf8_init a0). reflexivity.
    - exists (emitted_by utf8_init a0 ++ [65533]). now rewrite <- app_assoc. }
  exists out. split.
  - now rewrite process_queue_emitted, E, O, app_nil_r.
  - rewrite (process_queue_emitted (_ ++ rest)).
    rewrite (emitted_by_app (a0 ++ [125; 10]) rest).
    rewrite (end_state_app (a0 ++ [125; 10]) rest).
    rewrite E, O, <- !app_assoc. f_equal.
    now rewrite <- process_queue_emitted.
Qed.

Lemma flat_map_utf16_frame_end (x : list Z) :
  flat_map utf16 (x ++ [125; 10]) = flat_map utf16 x ++ [125; 10].
Proof. now rewrite flat_map_app. Qed.

(** Decoding such a chunk together with the bytes that follow gives the
    text of the chunk, which ends with a closing brace and a line feed, then
    possibly a byte order mark, then the text of the bytes that follow. *)
Lemma decode_frame_end (a0 rest : list Z) :
  exists pre,
    (pre = [] \/ pre = [65279]) /\
    ends_frame (decode (a0 ++ [125; 10])) /\
    decode ((a0 ++ [125; 10]) ++ rest) =
      decode (a0 ++ [125; 10]) ++ pre ++ decode rest.
Proof.
  destruct (process_queue_frame_end a0 rest) as (out & O1 & O2).
  destruct (strip_bom_suffix (process_queue utf8_init rest)) as (pre & P & S).
  exists pre. split; [exact P|].
  assert (exists out', strip_bom (out ++ [125; 10]) = out' ++ [125; 10])
    as [out' O'].
  { destruct out as [|c out]; [now exists []|]. cbn.
    destruct (c =? 65279); [now exists out|now exists (c :: out)]. }
  unfold decode. rewrite O1, O2. split.
  - rewrite O', flat_map_utf16_frame_end. apply ends_frame_app.
  - rewrite strip_bom_app by now destruct out.
    rewrite flat_map_app. f_equal.
    rewrite S at 1. rewrite flat_map_app. f_equal.
    now destruct P as [-> | ->].
Qed.

Lemma frames_skip_bom (s : jsstring) : frames (65279 :: s) = frames s.
Proof.
  rewrite (frames_unfold (65279 :: s)), (frames_unfold s). reflexivity.
Qed.

(** What a chunk adds when it continues after a frame line. *)
Lemma chunk_text_frame_end (a0 rest : list Z) :
  chunk_text ((a0 ++ [125; 10]) ++ rest) =
  chunk_text (a0 ++ [125; 10]) ++ chunk_text rest.
Proof.
  destruct (decode_frame_end a0 rest) as (pre & P & E & D).
  unfold chunk_text. rewrite !clean_text_frames, D.
  rewrite (frames_ends_frame _ _ E), map_app, concat_app. f_equal.
  destruct P as [-> | ->]; [reflexivity|].
  cbn [app]. now rewrite frames_skip_bom.
Qed.

Lemma output_one_chunk (chunks : list (list Z)) (last : list Z) :
  (forall c, In c chunks -> ends_after_frame_line c) ->
  output (chunks ++ [last]) = output [concat chunks ++ last].
Proof.
  induction chunks as [|c cs IH]; intros H; [reflexivity|].
  change ((c :: cs) ++ [last]) with ([c] ++ (cs ++ [last])).
  rewrite output_app, IH by (intros x I; apply H; now right).
  destruct (H c) as [c0 ->]; [now left|].
  rewrite !output_chunks. cbn [map concat].
  rewrite !app_nil_r, <- chunk_text_frame_end.
  now rewrite <- (app_assoc (c0 ++ [125; 10])).
Qed.

Lemma process_queue_continuation (t post : list Z) :
  Forall (fun b => 128 <= b <= 191) t ->
  process_queue utf8_init (t ++ post) =
  map (fun _ => 65533) t ++ process_queue utf8_init post.
Proof.
  induction 1 as [|b t B F IH]; [reflexivity|].
  cbn [app process_queue map].
  assert (process_byte utf8_init b = (utf8_init, [65533])) as ->.
  { unfold process_byte, utf8_handler. cbn [bytes_needed utf8_init Z.eqb].
    replace ((0 <=? b) && (b <=? 127)) with false
      by (symmetry; apply andb_false_intro2; apply Z.leb_gt; lia).
    replace ((194 <=? b) && (b <=? 223)) with false
      by (symmetry; apply andb_false_intro1; apply Z.leb_gt; lia).
    replace ((224 <=? b) && (b <=? 239)) with false
      by (symmetry; apply andb_false_intro1; apply Z.leb_gt; lia).
    replace ((240 <=? b) && (b <=? 244)) with false
      by (symmetry; apply andb_false_intro1; apply Z.leb_gt; lia).
    reflexivity. }
  now rewrite IH.
Qed.

Lemma flat_map_utf16_replacement (t : list Z) :
  flat_map utf16 (map (fun _ => 65533) t) = map (fun _ => 65533) t.
Proof. induction t as [|b t IH]; [reflexivity|]. cbn. now rewrite IH. Qed.

(** ** JSON.parse: termination within the fuel, and closing braces *)

Lemma closes_app (a b : jsstring) : closes (a ++ b) = (closes a + closes b)%nat.
Proof. induction a as [|c a IH]; cbn; [reflexivity|]. rewrite IH. lia. Qed.

Lemma closes_cons (c : Z) (s : jsstring) :
  (closes s <= closes (c :: s) <= S (closes s))%nat.
Proof. cbn. destruct (c =? 125); lia. Qed.

Lemma leaves_refl (s : jsstring) : leaves s s.
Proof. split; lia. Qed.

Lemma leaves_cons (c : Z) (r s : jsstring) : leaves r s -> leaves r (c :: s).
Proof. intros [L C]. pose proof (closes_cons c s). split; cbn [length]; lia. Qed.

Lemma leaves_trans (r s t : jsstring) : leaves r s -> leaves s t -> leaves r t.
Proof. intros [] []. split; lia. Qed.

Lemma skip_ws_measure (s : jsstring) :
  (length (skip_ws s) <= length s)%nat /\ closes (skip_ws s) = closes s.
Proof.
  induction s as [|c s [IH1 IH2]]; cbn; [now split|].
  destruct (is_json_ws c) eqn:W; [|now split].
  split; [lia|]. rewrite IH2.
  destruct (c =? 125) eqn:E; [|reflexivity].
  apply Z.eqb_eq in E. subst c. discriminate.
Qed.

Lemma skip_ws_leaves (s : jsstring) : leaves (skip_ws s) s.
Proof. destruct (skip_ws_measure s). split; lia. Qed.

Lemma parse_string_chars_measure (s acc str r : jsstring) :
  parse_string_chars s acc = Some (str, r) ->
  (length r < length s)%nat /\ (closes r <= closes s)%nat.
Proof.
  remember (length s) as n eqn:Hn.
  revert s acc Hn; induction n as [n IH] using lt_wf_ind; intros s acc Hn.
  destruct s as [|c s1]; [discriminate|]. cbn [parse_string_chars].
  pose proof (closes_cons c s1) as C1. cbn [length] in Hn.
  destruct (c =? 34).
  { intros [= <- <-]. split; lia. }
  destruct (c =? 92).
  { destruct s1 as [|e s2]; [discriminate|].
    pose proof (closes_cons e s2) as C2. cbn [length] in Hn.
    destruct (e =? 117).
    - destruct s2 as [|h1 [|h2 [|h3 [|h4 s3]]]]; try discriminate.
      destruct (hex4 h1 h2 h3 h4); [|discriminate].
      assert (leaves s3 (h1 :: h2 :: h3 :: h4 :: s3)) as [L3 C3]
        by (repeat apply leaves_cons; apply leaves_refl).
      cbn [length] in Hn, L3.
      intros H. apply (IH (length s3)) in H; [|lia|reflexivity]. split; lia.
    - destruct (escape e); [|discriminate].
      intros H. apply (IH (length s2)) in H; [|lia|reflexivity]. split; lia. }
  destruct (c <? 32); [discriminate|].
  intros H. apply (IH (length s1)) in H; [|lia|reflexivity]. split; lia.
Qed.

Lemma parse_digits_leaves (s : jsstring) (count value : Z) :
  leaves (snd (parse_digits s count value)) s.
Proof.
  revert count value; induction s as [|c s IH]; intros count value; cbn.
  - apply leaves_refl.
  - destruct (is_digit c); [|apply leaves_refl].
    apply leaves_cons, IH.
Qed.

Lemma parse_sign_leaves (s : jsstring) : leaves (snd (parse_sign s)) s.
Proof.
  destruct s as [|c s]; cbn; [apply leaves_refl|].
  destruct (c =? 45); cbn; [apply leaves_cons|]; apply leaves_refl.
Qed.

Lemma parse_int_measure (s : jsstring) (i : Z) (r : jsstring) :
  parse_int s = Some (i, r) ->
  (length r < length s)%nat /\ (closes r <= closes s)%nat.
Proof.
  destruct s as [|c s]; [discriminate|]. cbn [parse_int].
  pose proof (closes_cons c s). cbn [length].
  destruct (c =? 48); [intros [= <- <-]; split; lia|].
  destruct (is_digit c) eqn:D; [|discriminate].
  cbn [parse_digits]. rewrite D.
  pose proof (parse_digits_leaves s (0 + 1) (0 * 10 + (c - 48))) as [L C].
  destruct (parse_digits s (0 + 1) (0 * 10 + (c - 48))) as [[k v] t].
  intros [= <- <-]. cbn [snd] in *. split; lia.
Qed.

Lemma parse_frac_leaves (i : Z) (s : jsstring) (v n : Z) (r : jsstring) :
  parse_frac i s = Some (v, n, r) -> leaves r s.
Proof.
  destruct s as [|c s]; cbn [parse_frac]; [intros [= <- <- <-]; apply leaves_refl|].
  destruct (c =? 46); [|intros [= <- <- <-]; apply leaves_refl].
  pose proof (parse_digits_leaves s 0 i) as L.
  destruct (parse_digits s 0 i) as [[k w] t].
  destruct (k =? 0); [discriminate|]. intros [= <- <- <-].
  now apply leaves_cons.
Qed.

Lemma parse_exp_leaves (s : jsstring) (e : Z) (r : jsstring) :
  parse_exp s = Some (e, r) -> leaves r s.
Proof.
  destruct s as [|c s]; cbn [parse_exp]; [intros [= <- <-]; apply leaves_refl|].
  destruct ((c =? 101) || (c =? 69)); [|intros [= <- <-]; apply leaves_refl].
  assert (forall t : bool * jsstring,
    t = match s with
        | d :: s'' =>
            if d =? 45 then (true, s'')
            else if d =? 43 then (false, s'') else (false, s)
        | [] => (false, s)
        end -> leaves (snd t) s) as H.
  { intros t ->. destruct s as [|d s'']; [apply leaves_refl|].
    destruct (d =? 45); [apply leaves_cons, leaves_refl|].
    destruct (d =? 43); [apply leaves_cons|]; apply leaves_refl. }
  destruct (match s with
            | d :: s'' =>
                if d =? 45 then (true, s'')
                else if d =? 43 then (false, s'') else (false, s)
            | [] => (false, s)
            end) as [eneg s4].
  specialize (H _ eq_refl). cbn [snd] in H.
  pose proof (parse_digits_leaves s4 0 0) as L.
  destruct (parse_digits s4 0 0) as [[k w] t].
  destruct (k =? 0); [discriminate|]. intros [= <- <-].
  apply leaves_cons. exact (leaves_trans _ _ _ L H).
Qed.

Lemma parse_number_measure (s : jsstring) (d : Number.decimal) (r : jsstring) :
  parse_number s = Some (d, r) ->
  (length r < length s)%nat /\ (closes r <= closes s)%nat.
Proof.
  unfold parse_number.
  pose proof (parse_sign_leaves s) as [L1 C1].
  destruct (parse_sign s) as [neg s1]. cbn [snd] in *.
  destruct (parse_int s1) as [[i s2]|] eqn:I; [|discriminate].
  apply parse_int_measure in I as [L2 C2].
  destruct (parse_frac i s2) as [[[v n] s3]|] eqn:F; [|discriminate].
  apply parse_frac_leaves in F as [L3 C3].
  destruct (parse_exp s3) as [[e s5]|] eqn:X; [|discriminate].
  apply parse_exp_leaves in X as [L4 C4].
  intros [= <- <-]. split; lia.
Qed.

Lemma parse_literal_measure (word : jsstring) (v w : json) (s r : jsstring) :
  word <> [] ->
  parse_literal word v s = Some (w, r) ->
  w = v /\ (length r < length s)%nat /\ (closes r <= closes s)%nat.
Proof.
  intros N. unfold parse_literal.
  destruct (starts_with word s) eqn:P; [|discriminate].
  intros [= <- <-]. apply starts_with_split in P.
  split; [reflexivity|].
  assert (length s = length word + length (skipn (length word) s))%nat as L
    by (rewrite P at 1; apply length_app).
  assert (closes s = closes word + closes (skipn (length word) s))%nat as C
    by (rewrite P at 1; apply closes_app).
  destruct word; [easy|]. cbn [length] in *. split; lia.
Qed.

Lemma list_sum_rev (l : list nat) : list_sum (rev l) = list_sum l.
Proof.
  induction l as [|x l IH]; [reflexivity|].
  cbn [rev]. rewrite list_sum_app, IH.
  change (list_sum (x :: l)) with (x + list_sum l)%nat.
  change (list_sum [x]) with (x + 0)%nat. lia.
Qed.

Lemma objects_in_rev (vs : list json) : objects_in (rev vs) = objects_in vs.
Proof. unfold objects_in. now rewrite map_rev, list_sum_rev. Qed.

Lemma objects_of_rev (ms : list (jsstring * json)) :
  objects_of (rev ms) = objects_of ms.
Proof. unfold objects_of. now rewrite map_rev, list_sum_rev. Qed.

Lemma objects_in_cons (v : json) (vs : list json) :
  objects_in (v :: vs) = (objects v + objects_in vs)%nat.
Proof. reflexivity. Qed.

Lemma objects_of_cons (k : jsstring) (v : json) (ms : list (jsstring * json)) :
  objects_of ((k, v) :: ms) = (objects v + objects_of ms)%nat.
Proof. reflexivity. Qed.

Lemma objects_arr (vs : list json) : objects (JArr vs) = objects_in vs.
Proof. reflexivity. Qed.

Lemma objects_obj (ms : list (jsstring * json)) :
  objects (JObj ms) = S (objects_of ms).
Proof. reflexivity. Qed.

Section Lists.
Variable pv : jsstring -> option (json * jsstring).
Hypothesis pv_ok : value_ok pv.

Lemma parse_elements_measure (fuel : nat) :
  forall s acc vs r,
    parse_elements pv fuel s acc = Some (vs, r) ->
    (length r < length s)%nat /\
    (objects_in vs + closes r <= objects_in acc + closes s)%nat.
Proof.
  induction fuel as [|f IH]; intros s acc vs r; [discriminate|].
  cbn [parse_elements].
  destruct (pv s) as [[v s1]|] eqn:V; [|discriminate].
  apply pv_ok in V as [L1 C1].
  pose proof (skip_ws_measure s1) as [L2 C2].
  destruct (skip_ws s1) as [|c s2]; [discriminate|].
  pose proof (closes_cons c s2) as C3. cbn [length] in L2.
  destruct (c =? 44).
  - intros H. apply IH in H as [L4 C4].
    rewrite objects_in_cons in C4. split; lia.
  - destruct (c =? 93); [|discriminate]. intros [= <- <-].
    change (rev acc ++ [v]) with (rev (v :: acc)).
    rewrite objects_in_rev, objects_in_cons. split; lia.
Qed.

Lemma parse_members_measure (fuel : nat) :
  forall s acc ms r,
    parse_members pv fuel s acc = Some (ms, r) ->
    (length r < length s)%nat /\
    (S (objects_of ms) + closes r <= objects_of acc + closes s)%nat.
Proof.
  induction fuel as [|f IH]; intros s acc ms r; [discriminate|].
  cbn [parse_members].
  pose proof (skip_ws_measure s) as [L0 C0].
  destruct (skip_ws s) as [|q s0]; [discriminate|].
  pose proof (closes_cons q s0) as Cq. cbn [length] in L0.
  destruct (q =? 34); [|discriminate].
  destruct (parse_string_chars s0 []) as [[key s1]|] eqn:K; [|discriminate].
  apply parse_string_chars_measure in K as [L1 C1].
  pose proof (skip_ws_measure s1) as [L2 C2].
  destruct (skip_ws s1) as [|c s2]; [discriminate|].
  pose proof (closes_cons c s2) as Cc. cbn [length] in L2.
  destruct (c =? 58); [|discriminate].
  destruct (pv s2) as [[v s3]|] eqn:V; [|discriminate].
  apply pv_ok in V as [L3 C3].
  pose proof (skip_ws_measure s3) as [L4 C4].
  destruct (skip_ws s3) as [|d s4]; [discriminate|].
  cbn [length] in L4.
  destruct (d =? 44) eqn:D44.
  - pose proof (closes_cons d s4) as Cd.
    intros H. apply IH in H as [L5 C5].
    rewrite objects_of_cons in C5. split; lia.
  - destruct (d =? 125) eqn:D; [|discriminate]. intros [= <- <-].
    assert (closes (d :: s4) = S (closes s4)) as Cd by (cbn; now rewrite D).
    change (rev acc ++ [(key, v)]) with (rev ((key, v) :: acc)).
    rewrite objects_of_rev, objects_of_cons. split; lia.
Qed.

End Lists.

(** Every value the parser returns is paid for in input and closing
    braces. *)
Lemma parse_value_measure (fuel : nat) : value_ok (parse_value fuel).
Proof.
  induction fuel as [|f IH]; intros s v r; [discriminate|].
  cbn [parse_value].
  pose proof (skip_ws_measure s) as [L0 C0].
  destruct (skip_ws s) as [|c s1]; [discriminate|].
  cbn [length] in L0.
  destruct (c =? 123) eqn:E123.
  { assert (closes (c :: s1) = closes s1) as Cc.
    { apply Z.eqb_eq in E123. now subst c. }
    pose proof (skip_ws_measure s1) as [L1 C1].
    destruct (skip_ws s1) as [|d s2]; [discriminate|].
    cbn [length] in L1.
    destruct (d =? 125) eqn:D.
    - intros [= <- <-].
      assert (closes (d :: s2) = S (closes s2)) as Cd by (cbn; now rewrite D).
      rewrite objects_obj. change (objects_of []) with 0%nat. split; lia.
    - destruct (parse_members (parse_value f) f s1 []) as [[ms s3]|] eqn:M;
        [|discriminate].
      apply (parse_members_measure _ IH) in M as [L2 C2].
      intros [= <- <-]. rewrite objects_obj.
      change (objects_of []) with 0%nat in C2. split; lia. }
  pose proof (closes_cons c s1) as Cc.
  destruct (c =? 91).
  { pose proof (skip_ws_measure s1) as [L1 C1].
    destruct (skip_ws s1) as [|d s2]; [discriminate|].
    cbn [length] in L1. pose proof (closes_cons d s2) as Cd.
    destruct (d =? 93).
    - intros [= <- <-]. rewrite objects_arr.
      change (objects_in []) with 0%nat. split; lia.
    - destruct (parse_elements (parse_value f) f s1 []) as [[vs s3]|] eqn:M;
        [|discriminate].
      apply (parse_elements_measure _ IH) in M as [L2 C2].
      intros [= <- <-]. rewrite objects_arr.
      change (objects_in []) with 0%nat in C2. split; lia. }
  destruct (c =? 34).
  { destruct (parse_string_chars s1 []) as [[str s2]|] eqn:K; [|discriminate].
    apply parse_string_chars_measure in K as [L1 C1].
    intros [= <- <-]. cbn [objects]. split; lia. }
  assert (forall word w,
    word <> [] -> objects w = 0%nat ->
    parse_literal word w (c :: s1) = Some (v, r) ->
    (length r < length s)%nat /\ (objects v + closes r <= closes s)%nat) as Lit.
  { intros word w N O H.
    apply parse_literal_measure in H as (-> & L1 & C1); [|exact N].
    cbn [length] in L1. rewrite O. split; lia. }
  destruct (c =? 116); [now apply Lit|].
  destruct (c =? 102); [now apply Lit|].
  destruct (c =? 110); [now apply Lit|].
  destruct (parse_number (c :: s1)) as [[d s2]|] eqn:K; [|discriminate].
  apply parse_number_measure in K as [L1 C1]. cbn [length] in L1.
  intros [= <- <-]. cbn [objects]. split; lia.
Qed.

Section Stable.
Variables pv1 pv2 : jsstring -> option (json * jsstring).
Variable n : nat.
Hypothesis pv1_ok : value_ok pv1.
Hypothesis agree : forall s, (length s <= n)%nat -> pv1 s = pv2 s.

Lemma parse_elements_stable (g1 : nat) :
  forall g2 s acc,
    (length s <= n)%nat -> (length s < g1)%nat -> (length s < g2)%nat ->
    parse_elements pv1 g1 s acc = parse_elements pv2 g2 s acc.
Proof.
  induction g1 as [|g1 IH]; intros [|g2] s acc Hn H1 H2; try lia.
  cbn [parse_elements]. rewrite <- (agree s Hn).
  destruct (pv1 s) as [[v s1]|] eqn:V; [|reflexivity].
  apply pv1_ok in V as [L1 _].
  pose proof (skip_ws_measure s1) as [L2 _].
  destruct (skip_ws s1) as [|c s2]; [reflexivity|]. cbn [length] in L2.
  destruct (c =? 44); [|reflexivity]. apply IH; lia.
Qed.

Lemma parse_members_stable (g1 : nat) :
  forall g2 s acc,
    (length s <= n)%nat -> (length s < g1)%nat -> (length s < g2)%nat ->
    parse_members pv1 g1 s acc = parse_members pv2 g2 s acc.
Proof.
  induction g1 as [|g1 IH]; intros [|g2] s acc Hn H1 H2; try lia.
  cbn [parse_members].
  pose proof (skip_ws_measure s) as [L0 _].
  destruct (skip_ws s) as [|q s0]; [reflexivity|]. cbn [length] in L0.
  destruct (q =? 34); [|reflexivity].
  destruct (parse_string_chars s0 []) as [[key s1]|] eqn:K; [|reflexivity].
  apply parse_string_chars_measure in K as [L1 _].
  pose proof (skip_ws_measure s1) as [L2 _].
  destruct (skip_ws s1) as [|c s2]; [reflexivity|]. cbn [length] in L2.
  destruct (c =? 58); [|reflexivity].
  rewrite <- (agree s2) by lia.
  destruct (pv1 s2) as [[v s3]|] eqn:V; [|reflexivity].
  apply pv1_ok in V as [L3 _].
  pose proof (skip_ws_measure s3) as [L4 _].
  destruct (skip_ws s3) as [|d s4]; [reflexivity|]. cbn [length] in L4.
  destruct (d =? 44); [|reflexivity]. apply IH; lia.
Qed.

End Stable.

(** The result of [parse_value] does not depend on the fuel, once the fuel
    exceeds the length of the text. *)
Lemma parse_value_stable (f1 : nat) :
  forall f2 s,
    (length s < f1)%nat -> (length s < f2)%nat ->
    parse_value f1 s = parse_value f2 s.
Proof.
  induction f1 as [|f1 IH]; intros [|f2] s H1 H2; try lia.
  cbn [parse_value].
  pose proof (skip_ws_measure s) as [L0 _].
  destruct (skip_ws s) as [|c s1]; [reflexivity|]. cbn [length] in L0.
  assert (forall s', (length s' <= length s1)%nat ->
                     parse_value f1 s' = parse_value f2 s') as A
    by (intros s' L; apply IH; lia).
  destruct (c =? 123).
  { destruct (skip_ws s1) as [|d s2]; [reflexivity|].
    destruct (d =? 125); [reflexivity|].
    rewrite (parse_members_stable _ _ _ (parse_value_measure f1) A f1 f2)
      by lia.
    reflexivity. }
  destruct (c =? 91); [|reflexivity].
  destruct (skip_ws s1) as [|d s2]; [reflexivity|].
  destruct (d =? 93); [reflexivity|].
  rewrite (parse_elements_stable _ _ _ (parse_value_measure f1) A f1 f2)
    by lia.
  reflexivity.
Qed.

(** [JSON.parse] never fails for lack of fuel: more fuel gives the same
    result. *)
Lemma parse_fuel_irrelevant (text : jsstring) (fuel : nat) :
  (length text < fuel)%nat ->
  parse_value fuel text = parse_value (S (length text)) text.
Proof. intros H. apply parse_value_stable; lia. Qed.

(** ** What the frames of the pattern can contribute *)

Lemma lookup_objects (key : jsstring) (ms : list (jsstring * json)) (w : json) :
  lookup key ms = Of w -> (objects w <= objects_of ms)%nat.
Proof.
  induction ms as [|[k v] ms IH]; cbn [lookup]; [discriminate|].
  rewrite objects_of_cons.
  destruct (lookup key ms) as [|w'].
  - destruct (jsstring_eqb k key); [|discriminate]. intros [= <-]. lia.
  - intros [= <-]. specialize (IH eq_refl). lia.
Qed.

Lemma nth_error_objects (vs : list json) (i : nat) (w : json) :
  nth_error vs i = Some w -> (objects w <= objects_in vs)%nat.
Proof.
  revert i; induction vs as [|v vs IH]; intros [|i]; cbn [nth_error];
    try discriminate; rewrite objects_in_cons.
  - intros [= <-]. lia.
  - intros H. apply IH in H. lia.
Qed.

Lemma get_objects (o : json) (key : jsstring) (w : json) :
  get o key = Of w -> (objects w <= objects o)%nat.
Proof.
  destruct o as [| | |str|vs|ms]; cbn [get]; try discriminate.
  - destruct (index_of_key key) as [i|].
    + destruct (nth_error str i); [|discriminate]. intros [= <-]. cbn. lia.
    + destruct (jsstring_eqb key (lit "length")); [|discriminate].
      intros [= <-]. cbn. lia.
  - rewrite objects_arr. destruct (index_of_key key) as [i|].
    + destruct (nth_error vs i) eqn:N; [|discriminate]. intros [= <-].
      now apply nth_error_objects in N.
    + destruct (jsstring_eqb key (lit "length")); [|discriminate].
      intros [= <-]. cbn. lia.
  - rewrite objects_obj. intros H. apply lookup_objects in H. lia.
Qed.

Lemma get_delta_of_non_object (o : json) :
  objects o = 0%nat -> get o (lit "delta") = Undefined.
Proof. destruct o; try reflexivity. now rewrite objects_obj. Qed.

(** In an object that holds no other object, the path of the source leads
    nowhere. *)
Lemma content_of_flat (ms : list (jsstring * json)) :
  objects_of ms = 0%nat -> content_of (JObj ms) = Some Undefined.
Proof.
  intros H. unfold content_of. cbn [member get]. f_equal.
  destruct (lookup (lit "choices") ms) as [|v1] eqn:L1; [reflexivity|].
  apply lookup_objects in L1.
  destruct v1 as [| | |str|vs|ms1]; try reflexivity.
  - cbn [optional_member].
    destruct (get (JStr str) (lit "0")) as [|v2] eqn:G; [reflexivity|].
    apply get_objects in G. cbn in G.
    destruct v2; try reflexivity. rewrite objects_obj in G. lia.
  - cbn [optional_member].
    destruct (get (JArr vs) (lit "0")) as [|v2] eqn:G; [reflexivity|].
    apply get_objects in G.
    destruct v2; try reflexivity. rewrite objects_obj in G. lia.
  - rewrite objects_obj in L1. lia.
Qed.

Lemma braced_closes (c : Z) (b : jsstring) :
  forallb (fun c => negb (c =? 125) && negb (is_line_terminator c)) b = true ->
  closes (b ++ [125]) = 1%nat.
Proof.
  induction b as [|x b IH]; [reflexivity|]. cbn [forallb app closes].
  intros H. apply andb_prop in H as [H1 H2]. apply andb_prop in H1 as [H1 _].
  destruct (x =? 125); [discriminate|]. now apply IH.
Qed.

Lemma parse_value_object (f : nat) (s1 : jsstring) :
  parse_value (S f) (123 :: s1) =
  match skip_ws s1 with
  | d :: s2 =>
      if d =? 125 then Some (JObj [], s2)
      else
        match parse_members (parse_value f) f s1 [] with
        | Some (ms, s3) => Some (JObj ms, s3)
        | None => None
        end
  | [] => None
  end.
Proof. reflexivity. Qed.

(** A frame that parses is an object without objects inside. *)
Lemma parsed_frame_flat (jsonStr : jsstring) (v : json) :
  braced jsonStr -> JSON.parse jsonStr = Some v ->
  exists ms, v = JObj ms /\ objects_of ms = 0%nat.
Proof.
  intros (c & b & -> & L & B). unfold JSON.parse.
  destruct (parse_value _ _) as [[w r]|] eqn:PV; [|discriminate].
  destruct (skip_ws r); [|discriminate]. intros [= <-].
  pose proof (parse_value_measure _ _ _ _ PV) as [_ C].
  rewrite parse_value_object in PV.
  change (closes (123 :: c :: b ++ [125]))
    with (closes (c :: b ++ [125])) in C.
  cbn [closes] in C. rewrite (braced_closes c b B) in C.
  destruct (skip_ws (c :: b ++ [125])) as [|d s2] eqn:W; [discriminate|].
  destruct (d =? 125) eqn:D.
  - injection PV as <- _. now exists [].
  - assert ((c =? 125) = false) as E.
    { destruct (c =? 125) eqn:E; [|reflexivity].
      apply Z.eqb_eq in E. subst c. cbn in W. injection W as <- _.
      discriminate. }
    rewrite E in C.
    destruct (parse_members _ _ _ _) as [[ms s3]|]; [|discriminate].
    injection PV as <- _. exists ms. split; [reflexivity|].
    rewrite objects_obj in C. lia.
Qed.

(** The delta of a frame is empty, or the frame itself as raw text: the
    path [choices[0].delta.content] is never found in a frame. *)
Lemma frame_delta (jsonStr : jsstring) :
  braced jsonStr -> delta jsonStr = [] \/ delta jsonStr = jsonStr.
Proof.
  intros B. unfold delta, on_match.
  destruct (includes jsonStr (lit "[DONE]")); [now left|].
  unfold try_parse.
  destruct (JSON.parse jsonStr) as [v|] eqn:P; [|now right].
  destruct (parsed_frame_flat _ _ B P) as (ms & -> & F).
  rewrite (content_of_flat ms F). now left.
Qed.

Lemma deltas_start_with_brace (l : list jsstring) :
  (forall j, In j l -> braced j) ->
  concat (map delta l) = [] \/ exists t, concat (map delta l) = 123 :: t.
Proof.
  induction l as [|j l IH]; intros H; [now left|].
  cbn [map concat].
  destruct (frame_delta j (H j (or_introl eq_refl))) as [-> | ->].
  - apply IH. intros x I. apply H. now right.
  - destruct (H j (or_introl eq_refl)) as (c & b & -> & _). right.
    eexists. reflexivity.
Qed.

(** The text of a session that ended normally is empty or begins with an
    opening brace. *)
Lemma output_starts_with_brace (chunks : list (list Z)) :
  output chunks = [] \/ exists t, output chunks = 123 :: t.
Proof.
  rewrite output_deltas.
  apply deltas_start_with_brace.
  intros j I. apply in_flat_map in I as (value & _ & I).
  now apply frames_braced in I.
Qed.

(** ** The body of the try block on its own *)

(** The body of the [try] block on a string of any origin: for a string
    without the sentinel that parses as an object, what is appended is the
    text at [choices[0].delta.content], and nothing when a step of that path
    is absent; neither case throws. *)
Lemma try_block_reads_content_field (jsonStr cleanText : jsstring)
    (ms : list (jsstring * json)) :
  includes jsonStr (lit "[DONE]") = false ->
  JSON.parse jsonStr = Some (JObj ms) ->
  (forall text,
      field_at content_path (Of (JObj ms)) = Of (JStr text) ->
      try_parse jsonStr = Some text /\
      on_match jsonStr cleanText = cleanText ++ text) /\
  (field_at content_path (Of (JObj ms)) = Undefined ->
      try_parse jsonStr = Some [] /\
      on_match jsonStr cleanText = cleanText).
Proof.
  intros S P. unfold on_match, try_parse. rewrite S, P, content_of_object.
  split.
  - intros text ->. unfold or_empty. cbn.
    destruct text as [|c text]; cbn; [now rewrite app_nil_r|easy].
  - intros ->. cbn. now rewrite app_nil_r.
Qed.

Example try_block_on_whole_payload :
  on_match (quoted "{'choices':[{'delta':{'content':'Hi'}}]}") (lit "Oh, ") =
    lit "Oh, Hi" /\
  on_match (quoted "{'choices':[{'delta':{}}]}") (lit "Oh, ") = lit "Oh, ".
Proof. split; vm_compute; reflexivity. Qed.

(* ================================================================== *)
(** * The claims of the specification *)

(** ** C1 *)

(** C1 (amended).  Two partitions of the same byte stream yield the same
    output when, in both, every chunk but the last ends right after a frame
    line (with the bytes of a closing brace and a line feed); and for every
    partition the output is the concatenation of what each chunk yields on
    its own. *)
Theorem output_same_for_frame_line_splits
    (chunks1 chunks2 : list (list Z)) (last1 last2 : list Z) :
  (forall c, In c chunks1 -> ends_after_frame_line c) ->
  (forall c, In c chunks2 -> ends_after_frame_line c) ->
  concat chunks1 ++ last1 = concat chunks2 ++ last2 ->
  output (chunks1 ++ [last1]) = output (chunks2 ++ [last2]) /\
  output (chunks1 ++ [last1]) = concat (map chunk_text (chunks1 ++ [last1])).
Proof.
  intros H1 H2 E. split; [|apply output_chunks].
  now rewrite (output_one_chunk _ _ H1), (output_one_chunk _ _ H2), E.
Qed.

Lemma output_same_for_frame_line_splits_witness :
  output ([lit "data: {one}" ++ [LF]] ++ [lit "data: {two}" ++ [LF]]) =
    output ([] ++ [lit "data: {one}" ++ [LF] ++ lit "data: {two}" ++ [LF]]) /\
  output ([lit "data: {one}" ++ [LF]] ++ [lit "data: {two}" ++ [LF]]) =
    concat (map chunk_text
      ([lit "data: {one}" ++ [LF]] ++ [lit "data: {two}" ++ [LF]])).
Proof.
  apply output_same_for_frame_line_splits.
  - intros c [<-|[]]. exists (lit "data: {one"). reflexivity.
  - intros c [].
  - reflexivity.
Defined.

(** C1 (counterexample).  One byte stream, two partitions, two outputs: a
    chunk boundary inside a frame loses the frame. *)
Lemma chunk_boundary_changes_output :
  concat [lit "data: {h"; lit "i}" ++ [LF]] = concat [lit "data: {hi}" ++ [LF]] /\
  output [lit "data: {hi}" ++ [LF]] = lit "{hi}" /\
  output [lit "data: {h"; lit "i}" ++ [LF]] = [] /\
  output [lit "data: {h"; lit "i}" ++ [LF]] <> output [lit "data: {hi}" ++ [LF]].
Proof. repeat split; vm_compute; congruence. Qed.

(** ** C2 *)

(** C2 (amended).  In the scenario the session ends CLOSED; the two chunks
    that hold the halves of the first frame add nothing, and neither does
    the bare sentinel line: the output is what the third line adds alone. *)
Theorem scenario_closed_first_frame_lost :
  snd (getAiInsights
         (delivers [scenario_1; scenario_2; scenario_3a ++ scenario_3b])
         initial) = CLOSED /\
  output [scenario_1; scenario_2] = [] /\
  output [scenario_3b] = [] /\
  output [scenario_1; scenario_2; scenario_3a ++ scenario_3b] =
    output [scenario_3a].
Proof. repeat split; vm_compute; reflexivity. Qed.

(** C2 (counterexample).  The scenario does not produce [Hello world],
    whether its last two lines arrive in one chunk or in two: the screen
    shows a truncated raw payload. *)
Lemma scenario_not_hello_world :
  output [scenario_1; scenario_2; scenario_3a ++ scenario_3b] =
    quoted "{'choices':[{'delta':{'content':' world'}" /\
  output [scenario_1; scenario_2; scenario_3a; scenario_3b] =
    quoted "{'choices':[{'delta':{'content':' world'}" /\
  output [scenario_1; scenario_2; scenario_3a ++ scenario_3b] <>
    lit "Hello world" /\
  output [scenario_1; scenario_2; scenario_3a; scenario_3b] <>
    lit "Hello world".
Proof. repeat split; vm_compute; congruence. Qed.

(** ** C3 *)

(** C3 (amended).  At every point of a session the output is the ordered
    concatenation of the deltas of the frames found in each chunk delivered
    so far, each chunk being searched on its own: what a chunk adds depends
    on that chunk alone, and text of earlier chunks that formed no frame
    there is not kept. *)
Theorem output_is_deltas_of_chunk_frames (chunks : list (list Z)) :
  output chunks =
    concat (map delta
      (flat_map (fun value => frames (TextDecoder.decode value)) chunks)) /\
  forall value,
    output (chunks ++ [value]) =
    output chunks ++ concat (map delta (frames (TextDecoder.decode value))).
Proof.
  split; [apply output_deltas|].
  intros value. rewrite output_app. f_equal.
  rewrite (output_deltas [value]). cbn [flat_map]. now rewrite app_nil_r.
Qed.

(** C3 (counterexample).  The stream holds one complete frame, split over
    two chunks; the text of the first chunk is not carried over, so after
    both chunks the frame has contributed nothing. *)
Lemma partial_frame_not_carried_over :
  frames (TextDecoder.decode (lit "data: {he" ++ lit "llo}" ++ [LF])) =
    [lit "{hello}"] /\
  delta (lit "{hello}") = lit "{hello}" /\
  output [lit "data: {he"; lit "llo}" ++ [LF]] = [] /\
  getAiInsights (delivers [lit "data: {he"]) initial =
    getAiInsights (delivers [[]]) initial.
Proof. repeat split; vm_compute; reflexivity. Qed.

(** ** C4 *)

(** C4 (amended).  A frame whose payload contains the sentinel is skipped:
    it adds nothing.  What a chunk adds is the deltas of all its other
    frames, those after a sentinel frame included, and the chunks after it
    still contribute; the session ends CLOSED when the stream ends. *)
Theorem sentinel_frame_skipped :
  (forall jsonStr cleanText,
      includes jsonStr (lit "[DONE]") = true ->
      on_match jsonStr cleanText = cleanText) /\
  (forall chunk,
      clean_text chunk =
      concat (map delta
        (filter (fun j => negb (includes j (lit "[DONE]"))) (frames chunk)))) /\
  (forall chunks st,
      getAiInsights (delivers chunks) st =
      (State (concat (map chunk_text chunks)) false, CLOSED)).
Proof.
  split; [|split].
  - intros jsonStr cleanText H. unfold on_match. now rewrite H.
  - intros chunk. rewrite clean_text_frames. apply concat_map_delta_filter.
  - exact getAiInsights_delivers.
Qed.

Lemma sentinel_frame_skipped_witness :
  on_match (lit "{[DONE]}") (lit "so far") = lit "so far".
Proof.
  apply (proj1 sentinel_frame_skipped). vm_compute. reflexivity.
Defined.

(** C4 (counterexample).  A frame that follows a sentinel frame in the same
    chunk still emits its delta, and so does a frame of a later chunk. *)
Lemma delta_after_sentinel :
  frames (lit "data: {[DONE]}" ++ [LF] ++ lit "data: {after}" ++ [LF]) =
    [lit "{[DONE]}"; lit "{after}"] /\
  includes (lit "{[DONE]}") (lit "[DONE]") = true /\
  output [lit "data: {[DONE]}" ++ [LF] ++ lit "data: {after}" ++ [LF]] =
    lit "{after}" /\
  output [lit "data: {[DONE]}" ++ [LF]; lit "data: {later}" ++ [LF]] =
    lit "{later}".
Proof. repeat split; vm_compute; reflexivity. Qed.

(** ** C5 *)

(** C5 (amended).  A frame the pattern yields (a braced payload) that does
    not contain the sentinel and that [JSON.parse] rejects contributes its
    raw text verbatim, and the session still ends CLOSED. *)
Theorem unparsable_frame_kept_raw (jsonStr : jsstring) :
  braced jsonStr ->
  includes jsonStr (lit "[DONE]") = false ->
  JSON.parse jsonStr = None ->
  (forall cleanText, on_match jsonStr cleanText = cleanText ++ jsonStr) /\
  clean_text (lit "data: " ++ jsonStr ++ [LF]) = jsonStr /\
  forall chunks st, snd (getAiInsights (delivers chunks) st) = CLOSED.
Proof.
  intros B S P.
  assert (forall t, on_match jsonStr t = t ++ jsonStr) as H.
  { intros t. unfold on_match, try_parse. now rewrite S, P. }
  repeat split; trivial.
  - rewrite clean_text_frames, frames_data_line by trivial.
    unfold delta. cbn. rewrite H. now rewrite app_nil_r.
  - intros chunks st. now rewrite getAiInsights_delivers.
Qed.

Lemma unparsable_frame_kept_raw_witness :
  (forall cleanText,
      on_match (lit "{not-json-at-all}") cleanText =
      cleanText ++ lit "{not-json-at-all}") /\
  clean_text (lit "data: " ++ lit "{not-json-at-all}" ++ [LF]) =
    lit "{not-json-at-all}" /\
  forall chunks st, snd (getAiInsights (delivers chunks) st) = CLOSED.
Proof.
  apply unparsable_frame_kept_raw.
  - exact braced_not_json.
  - vm_compute. reflexivity.
  - vm_compute. reflexivity.
Defined.

(** C5 (counterexample).  The payload of the line [data: not-json-at-all]
    fails structured parsing, and none of its text reaches the output. *)
Lemma plain_payload_dropped :
  JSON.parse (lit "not-json-at-all") = None /\
  output [lit "data: not-json-at-all" ++ [LF]] = [] /\
  output [lit "data: not-json-at-all" ++ [LF]] <> lit "not-json-at-all".
Proof. repeat split; vm_compute; congruence. Qed.

(** ** C6 *)

(** C6 (evaluation at the failing input).  On the payload the component
    itself expects, [{"choices":[{"delta":{"content":"Hi"}}]}], the match
    stops at the first inner closing brace: the frame is a truncated prefix,
    [JSON.parse] rejects it, and the raw prefix is what reaches the screen.
    A payload with a line terminator before its first closing brace yields
    no frame. *)
Theorem frame_truncated_at_inner_brace :
  frames (quoted "data: {'choices':[{'delta':{'content':'Hi'}}]}" ++ [LF]) =
    [quoted "{'choices':[{'delta':{'content':'Hi'}"] /\
  JSON.parse (quoted "{'choices':[{'delta':{'content':'Hi'}") = None /\
  output [quoted "data: {'choices':[{'delta':{'content':'Hi'}}]}" ++ [LF]] =
    quoted "{'choices':[{'delta':{'content':'Hi'}" /\
  frames (quoted "data: {'choices':" ++ [LF] ++ quoted "[]}" ++ [LF]) = [].
Proof. repeat split; vm_compute; reflexivity. Qed.

(** ** C7 *)

(** C7 (amended).  Every call of [decode] starts from the initial decoder
    state and flushes, and none throws.  The text of a chunk that ends
    inside a multi-byte sequence ends with U+FFFD; a chunk that begins with
    continuation bytes (the rest of a sequence begun in the chunk before)
    has one U+FFFD for each of them at the start of its text. *)
Theorem split_code_point_replaced (value t post : list Z) :
  bytes_needed (end_state utf8_init value) <> 0 ->
  t <> [] ->
  Forall (fun b => 128 <= b <= 191) t ->
  (exists text, decode value = text ++ [65533]) /\
  decode (t ++ post) =
    map (fun _ => 65533) t ++ flat_map utf16 (process_queue utf8_init post).
Proof.
  intros N T F. split.
  - unfold decode. rewrite process_queue_emitted.
    apply Z.eqb_neq in N. rewrite N.
    destruct (emitted_by utf8_init value) as [|c out].
    + now exists [].
    + cbn [app strip_bom].
      destruct (c =? 65279).
      * exists (flat_map utf16 out). now rewrite flat_map_app.
      * exists (flat_map utf16 (c :: out)).
        change (c :: out ++ [65533]) with ((c :: out) ++ [65533]).
        now rewrite flat_map_app.
  - unfold decode. rewrite (process_queue_continuation t post F).
    rewrite strip_bom_app by (destruct t; [easy|discriminate]).
    destruct t as [|b t]; [easy|].
    change (strip_bom (map (fun _ => 65533) (b :: t)))
      with (map (fun _ : Z => 65533) (b :: t)).
    now rewrite flat_map_app, flat_map_utf16_replacement.
Qed.

Lemma split_code_point_replaced_witness :
  (exists text, decode (lit "caf" ++ [195]) = text ++ [65533]) /\
  decode ([169] ++ lit " au lait") =
    map (fun _ => 65533) [169] ++
    flat_map utf16 (process_queue utf8_init (lit " au lait")).
Proof.
  apply split_code_point_replaced.
  - vm_compute. discriminate.
  - discriminate.
  - repeat constructor; lia.
Defined.

(** C7 (counterexample).  The two bytes of U+00E9 decode to it when they
    arrive in one chunk; split over two chunks they decode to two U+FFFD,
    and a frame that holds the character is lost. *)
Lemma split_code_point_garbled :
  decode [195; 169] = [233] /\
  decode [195] ++ decode [169] = [65533; 65533] /\
  output [lit "data: {caf" ++ [195; 169] ++ lit "}" ++ [LF]] =
    lit "{caf" ++ [233] ++ lit "}" /\
  output [lit "data: {caf" ++ [195]; [169] ++ lit "}" ++ [LF]] = [].
Proof. repeat split; vm_compute; reflexivity. Qed.

(** ** C8 *)

(** C8 (the failing input, and the frames the pattern can yield).  The
    payload [{"choices":[{"delta":{"content":"Hello"}}]}] parses as an object
    with the text [Hello] at [choices[0].delta.content], and the [try] block
    given the whole payload would append [Hello]; but the frame the pattern
    yields for its line is the prefix up to the first closing brace, which
    [JSON.parse] rejects, so the delta is that raw prefix and [Hello] is not
    what the chunk adds.  In general, whatever the chunk, a frame of it that
    parses as an object has no field at that path: it adds nothing and does
    not fail, as the frames of [{"choices":[]}] and [{"id":7}] show. *)
Theorem content_field_lost_with_frame :
  (exists ms,
      JSON.parse (quoted "{'choices':[{'delta':{'content':'Hello'}}]}") =
        Some (JObj ms) /\
      field_at content_path (Of (JObj ms)) = Of (JStr (lit "Hello"))) /\
  try_parse (quoted "{'choices':[{'delta':{'content':'Hello'}}]}") =
    Some (lit "Hello") /\
  frames (quoted "data: {'choices':[{'delta':{'content':'Hello'}}]}" ++ [LF]) =
    [quoted "{'choices':[{'delta':{'content':'Hello'}"] /\
  try_parse (quoted "{'choices':[{'delta':{'content':'Hello'}") = None /\
  clean_text (quoted "data: {'choices':[{'delta':{'content':'Hello'}}]}" ++ [LF])
    = quoted "{'choices':[{'delta':{'content':'Hello'}" /\
  output [quoted "data: {'choices':[{'delta':{'content':'Hello'}}]}" ++ [LF]] =
    quoted "{'choices':[{'delta':{'content':'Hello'}" /\
  output [quoted "data: {'choices':[{'delta':{'content':'Hello'}}]}" ++ [LF]] <>
    lit "Hello" /\
  (forall (chunk jsonStr cleanText : jsstring) (ms : list (jsstring * json)),
      In jsonStr (frames chunk) ->
      JSON.parse jsonStr = Some (JObj ms) ->
      field_at content_path (Of (JObj ms)) = Undefined /\
      try_parse jsonStr = Some [] /\
      on_match jsonStr cleanText = cleanText) /\
  frames (quoted "data: {'choices':[]}" ++ [LF]) = [quoted "{'choices':[]}"] /\
  JSON.parse (quoted "{'choices':[]}") = Some (JObj [(lit "choices", JArr [])]) /\
  output [quoted "data: {'choices':[]}" ++ [LF];
          quoted "data: {'id':7}" ++ [LF]] = [].
Proof.
  split.
  { eexists. split; vm_compute; reflexivity. }
  do 6 (split; [vm_compute; congruence|]).
  split; [|repeat split; vm_compute; reflexivity].
  intros chunk jsonStr cleanText ms I P.
  apply frames_braced in I.
  destruct (parsed_frame_flat _ _ I P) as (ms' & [= <-] & F).
  assert (field_at content_path (Of (JObj ms)) = Undefined) as C.
  { pose proof (content_of_flat ms F) as C.
    rewrite content_of_object in C. congruence. }
  split; [exact C|].
  unfold on_match, try_parse. rewrite P, content_of_object, C.
  split; [reflexivity|].
  destruct (includes jsonStr (lit "[DONE]")); [reflexivity|].
  cbn. apply app_nil_r.
Qed.

(** ** C9 *)

(** C9. When the backend answers with a non-success status, or the response
    has no readable body, no chunk is read: the session ends FAILED with a
    readable description, and the text on the screen is replaced by that
    description after the marker [Error: ].  A session whose stream ends
    normally ends CLOSED and its text never begins with that marker, so the
    two are told apart. *)
Theorem transport_failure_reported (r : fetch_result) (st0 : state) :
  (exists b, r = Fulfilled (Response false b)) \/
  r = Fulfilled (Response true None) ->
  exists description,
    getAiInsights r st0 =
      (State (lit "Error: " ++ description) false, FAILED description) /\
    (description = lit "Error: Backend unreachable" \/
     description =
       lit "Error: ReadableStream not yet supported or empty response") /\
    forall chunks st,
      snd (getAiInsights (delivers chunks) st) = CLOSED /\
      starts_with (lit "Error: ")
        (insight (fst (getAiInsights (delivers chunks) st))) = false.
Proof.
  assert (forall chunks st,
    snd (getAiInsights (delivers chunks) st) = CLOSED /\
    starts_with (lit "Error: ")
      (insight (fst (getAiInsights (delivers chunks) st))) = false) as N.
  { intros chunks st. rewrite getAiInsights_delivers. split; [reflexivity|].
    cbn [fst insight]. rewrite <- output_chunks.
    now destruct (output_starts_with_brace chunks) as [-> | [t ->]]. }
  intros [[b ->]| ->].
  - exists (lit "Error: Backend unreachable"). repeat split; try apply N.
    now left.
  - exists (lit "Error: ReadableStream not yet supported or empty response").
    repeat split; try apply N. now right.
Qed.

Lemma transport_failure_reported_witness :
  exists description,
    getAiInsights (Fulfilled (Response false None)) initial =
      (State (lit "Error: " ++ description) false, FAILED description) /\
    (description = lit "Error: Backend unreachable" \/
     description =
       lit "Error: ReadableStream not yet supported or empty response") /\
    forall chunks st,
      snd (getAiInsights (delivers chunks) st) = CLOSED /\
      starts_with (lit "Error: ")
        (insight (fst (getAiInsights (delivers chunks) st))) = false.
Proof.
  apply transport_failure_reported. left. exists None. reflexivity.
Defined.

(** ** C10 *)

(** C10. A frame is recognised only where the token [data:], then white
    space, is followed by an opening brace and, later in the same chunk, a
    closing brace.  A chunk without a braced body, such as the bare line
    [data: [DONE]] or a plain-text payload, yields no frame and adds nothing
    to the output, so the sentinel test is never reached for it; the
    sentinel test itself is substring containment, not equality. *)
Theorem frames_need_braces :
  (forall chunk jsonStr,
      In jsonStr (frames chunk) ->
      exists pre ws post,
        chunk = pre ++ lit "data:" ++ ws ++ jsonStr ++ post /\
        forallb is_white_space ws = true /\
        braced jsonStr) /\
  (forall chunk,
      ~ In 123 chunk \/ ~ In 125 chunk ->
      frames chunk = [] /\ clean_text chunk = []) /\
  (frames (lit "data: [DONE]" ++ [LF]) = [] /\
   output [lit "data: [DONE]" ++ [LF]] = []) /\
  (forall jsonStr cleanText,
      includes jsonStr (lit "[DONE]") = true ->
      on_match jsonStr cleanText = cleanText) /\
  on_match (quoted "{'status':'so far [DONE] with it'}") (lit "text") =
    lit "text".
Proof.
  split; [exact frames_located|].
  split.
  - intros chunk H.
    assert (frames chunk = []) as E.
    { destruct (frames chunk) as [|j l] eqn:F; [reflexivity|].
      assert (In j (frames chunk)) as I by (rewrite F; now left).
      apply frames_located in I as (pre & ws & post & -> & _ & B).
      apply braced_has_braces in B as [Bo Bc].
      exfalso. destruct H as [H|H]; apply H; rewrite !in_app_iff; tauto. }
    split; [exact E|]. now rewrite clean_text_frames, E.
  - split; [split; reflexivity|].
    split; [|reflexivity].
    intros jsonStr cleanText H. unfold on_match. now rewrite H.
Qed.

Lemma frames_need_braces_witness :
  frames (lit "data: plain text, no payload object" ++ [LF]) = [] /\
  on_match (quoted "{'x':'[DONE]'}") (lit "t") = lit "t".
Proof.
  split.
  - apply (proj1 (proj2 frames_need_braces)).
    left. vm_compute. intuition discriminate.
  - apply (proj1 (proj2 (proj2 (proj2 frames_need_braces)))).
    vm_compute. reflexivity.
Defined.

(* ================================================================== *)
(** * Further properties of the two components *)

(** ** The second component on known inputs *)

Example split_pieces :
  split (lit "data:") (lit "xdata:ydata:data:") = [lit "x"; lit "y"; []; []].
Proof. reflexivity. Qed.

Example split_empty : split (lit "data:") [] = [[]].
Proof. reflexivity. Qed.

Example split_leftmost :
  split (lit "data:") (lit "dadata:ta:") = [lit "da"; lit "ta:"].
Proof. reflexivity. Qed.

Example clean_text_line :
  App2.clean_text (lit "data: Your spending" ++ [LF] ++ lit "data: rose." ++ [LF]) =
  lit " Your spending rose.".
Proof. reflexivity. Qed.

Example clean_text_sentinel_shown :
  App2.output [lit "data: hi" ++ [LF; LF]; lit "data: [DONE]" ++ [LF; LF]] =
  lit " hi [DONE]".
Proof. reflexivity. Qed.

(** ** [split], [join] and [replace] *)

Lemma starts_with_nil_r (sep : jsstring) :
  sep <> [] -> starts_with sep [] = false.
Proof. now destruct sep. Qed.

Lemma starts_with_extend (p a b : jsstring) :
  starts_with p a = true -> starts_with p (a ++ b) = true.
Proof.
  revert a; induction p as [|x p IH]; intros [|y a]; cbn; try easy.
  intros H. apply andb_prop in H as [E H]. rewrite E. now apply IH.
Qed.

(** The text is the piece, the separator and the rest, in this order. *)
Lemma until_sep_parts (sep s : jsstring) :
  match until_sep sep s with
  | (piece, Some r) => s = piece ++ sep ++ r
  | (piece, None) => s = piece
  end.
Proof.
  induction s as [|c s IH]; cbn [until_sep].
  - destruct (starts_with sep []) eqn:P; [|reflexivity].
    now apply starts_with_split in P.
  - destruct (starts_with sep (c :: s)) eqn:P.
    + now apply starts_with_split in P.
    + destruct (until_sep sep s) as [piece [r|]]; cbn; now rewrite <- IH.
Qed.

Lemma until_sep_free (sep s : jsstring) :
  sep <> [] -> includes (fst (until_sep sep s)) sep = false.
Proof.
  intros N. induction s as [|c s IH]; cbn [until_sep].
  - rewrite (starts_with_nil_r _ N). cbn. now rewrite (starts_with_nil_r _ N).
  - destruct (starts_with sep (c :: s)) eqn:P.
    + cbn. now rewrite (starts_with_nil_r _ N).
    + pose proof (until_sep_parts sep s) as J.
      destruct (until_sep sep s) as [piece r]. cbn [fst] in *.
      cbn [includes]. rewrite IH, orb_false_r.
      destruct (starts_with sep (c :: piece)) eqn:Q; [|reflexivity].
      rewrite <- P. symmetry.
      destruct r as [r|]; subst s;
        [change (c :: piece ++ sep ++ r) with ((c :: piece) ++ sep ++ r)|];
        trivial; now apply starts_with_extend.
Qed.

Lemma until_sep_shorter (sep s piece r : jsstring) :
  sep <> [] -> until_sep sep s = (piece, Some r) ->
  (length r < length s)%nat.
Proof.
  intros N H. pose proof (until_sep_parts sep s) as J. rewrite H in J.
  subst s. rewrite !length_app. destruct sep; [easy|]. cbn. lia.
Qed.

Lemma split_from_enough (sep : jsstring) (f1 f2 : nat) (s : jsstring) :
  sep <> [] -> (length s < f1)%nat -> (length s < f2)%nat ->
  split_from f1 sep s = split_from f2 sep s.
Proof.
  intros N. revert f2 s; induction f1 as [|f1 IH]; intros [|f2] s H1 H2;
    try lia.
  cbn [split_from].
  destruct (until_sep sep s) as [piece [r|]] eqn:U; [|reflexivity].
  f_equal. apply until_sep_shorter in U; trivial. apply IH; lia.
Qed.

Lemma split_unfold (sep s : jsstring) :
  sep <> [] ->
  split sep s =
  match until_sep sep s with
  | (piece, Some r) => piece :: split sep r
  | (piece, None) => [piece]
  end.
Proof.
  intros N. unfold split at 1. cbn [split_from].
  destruct (until_sep sep s) as [piece [r|]] eqn:U; [|reflexivity].
  f_equal. apply until_sep_shorter in U; trivial.
  apply split_from_enough; trivial; lia.
Qed.

Lemma split_not_nil (sep s : jsstring) : sep <> [] -> split sep s <> [].
Proof.
  intros N. rewrite split_unfold by trivial.
  now destruct (until_sep sep s) as [piece [r|]].
Qed.

Lemma join_cons (sep p : jsstring) (ps : list jsstring) :
  ps <> [] -> join sep (p :: ps) = p ++ sep ++ join sep ps.
Proof. now destruct ps. Qed.

Lemma join_nil (pieces : list jsstring) : join [] pieces = concat pieces.
Proof.
  induction pieces as [|p [|q ps] IH]; cbn [join concat]; trivial.
  - now rewrite app_nil_r.
  - cbn [app]. f_equal. exact IH.
Qed.

Lemma split_join (sep s : jsstring) :
  sep <> [] -> join sep (split sep s) = s.
Proof.
  intros N. remember (length s) as n eqn:Hn.
  revert s Hn; induction n as [n IH] using lt_wf_ind; intros s Hn.
  rewrite split_unfold by trivial.
  pose proof (until_sep_parts sep s) as J.
  destruct (until_sep sep s) as [piece [r|]] eqn:U; [|now subst].
  apply until_sep_shorter in U; trivial.
  rewrite join_cons by now apply split_not_nil.
  rewrite (IH (length r)); [now subst s|lia|reflexivity].
Qed.

Lemma split_pieces_free (sep s piece : jsstring) :
  sep <> [] -> In piece (split sep s) -> includes piece sep = false.
Proof.
  intros N. remember (length s) as n eqn:Hn.
  revert s Hn; induction n as [n IH] using lt_wf_ind; intros s Hn.
  rewrite split_unfold by trivial.
  pose proof (until_sep_free sep s N) as F.
  destruct (until_sep sep s) as [p [r|]] eqn:U; cbn [fst] in F.
  - apply until_sep_shorter in U; trivial.
    intros [<-|I]; [exact F|]. apply (IH (length r)) with (s := r); trivial. lia.
  - now intros [<-|[]].
Qed.

Lemma split_whole (sep s : jsstring) :
  includes s sep = false -> until_sep sep s = (s, None).
Proof.
  induction s as [|c s IH]; cbn [includes until_sep]; intros H;
    apply orb_false_elim in H as [P I]; rewrite P; [reflexivity|].
  now rewrite (IH I).
Qed.

Lemma replace_lf_app (a b : jsstring) :
  replace_lf (a ++ b) = replace_lf a ++ replace_lf b.
Proof. apply filter_app. Qed.

Lemma replace_lf_concat (l : list jsstring) :
  concat (map replace_lf l) = replace_lf (concat l).
Proof.
  induction l as [|p l IH]; [reflexivity|].
  cbn [map concat]. now rewrite replace_lf_app, IH.
Qed.

Lemma replace_lf_none (s : jsstring) : ~ In LF s -> replace_lf s = s.
Proof.
  induction s as [|c s IH]; [reflexivity|]. intros N. cbn.
  destruct (c =? LF) eqn:E.
  - apply Z.eqb_eq in E. subst c. elim N. now left.
  - cbn. f_equal. apply IH. intros I. apply N. now right.
Qed.

Lemma token_not_nil : lit "data:" <> [].
Proof. discriminate. Qed.

(** What the second component makes of a chunk: the token and the line
    feeds are taken out. *)
Lemma clean_text2_spec (chunk : jsstring) :
  App2.clean_text chunk = replace_lf (without_token chunk).
Proof.
  unfold App2.clean_text, without_token. rewrite join_nil.
  rewrite <- replace_lf_concat. f_equal. apply map_ext.
  now intros [|c line].
Qed.

Lemma length_concat_join (sep : jsstring) (l : list jsstring) :
  (length (concat l) <= length (join sep l))%nat.
Proof.
  induction l as [|p [|q l] IH]; cbn [concat join]; [lia| |].
  - rewrite app_nil_r. lia.
  - cbn [concat join] in IH. rewrite !length_app in *. lia.
Qed.

(** ** Lines of the second component *)

Lemma starts_with_before_lf (sep v rest : jsstring) :
  ~ In LF sep ->
  starts_with sep (v ++ LF :: rest) = true -> starts_with sep v = true.
Proof.
  revert v; induction sep as [|x sep IH]; intros v N; [reflexivity|].
  destruct v as [|y v]; cbn.
  - intros H. apply andb_prop in H as [E _]. apply Z.eqb_eq in E.
    subst x. elim N. now left.
  - intros H. apply andb_prop in H as [E H]. rewrite E. cbn.
    apply IH; trivial. intros I. apply N. now right.
Qed.

(** A payload without the token, up to its line feed, stays in one piece. *)
Lemma until_sep_payload (sep p rest : jsstring) :
  sep <> [] -> ~ In LF sep -> includes p sep = false ->
  until_sep sep (p ++ LF :: rest) =
  (p ++ LF :: fst (until_sep sep rest), snd (until_sep sep rest)).
Proof.
  intros N L. induction p as [|c p IH]; intros F.
  - cbn [app until_sep].
    destruct (starts_with sep (LF :: rest)) eqn:P.
    + apply (starts_with_before_lf sep [] rest L) in P.
      now rewrite (starts_with_nil_r _ N) in P.
    + now destruct (until_sep sep rest).
  - cbn [includes] in F. apply orb_false_elim in F as [P F].
    cbn [app until_sep].
    destruct (starts_with sep (c :: p ++ LF :: rest)) eqn:Q.
    + apply (starts_with_before_lf sep (c :: p) rest L) in Q. congruence.
    + now rewrite (IH F).
Qed.

Lemma without_token_payload (p rest : jsstring) :
  includes p (lit "data:") = false ->
  without_token (p ++ LF :: rest) = p ++ LF :: without_token rest.
Proof.
  intros F. unfold without_token.
  rewrite (split_unfold _ (p ++ LF :: rest) token_not_nil).
  rewrite (split_unfold _ rest token_not_nil).
  rewrite until_sep_payload; trivial; [|discriminate|].
  - destruct (until_sep (lit "data:") rest) as [piece [r|]]; cbn [fst snd concat];
      now rewrite <- ?app_assoc, ?app_nil_r.
  - vm_compute. intuition discriminate.
Qed.

Lemma without_token_token (rest : jsstring) :
  without_token (lit "data:" ++ rest) = without_token rest.
Proof.
  unfold without_token.
  rewrite (split_unfold _ (lit "data:" ++ rest) token_not_nil).
  reflexivity.
Qed.

Lemma without_token_data_lines (payloads : list jsstring) :
  (forall p, In p payloads -> includes p (lit "data:") = false) ->
  without_token (data_lines payloads) =
  concat (map (fun p => p ++ [LF]) payloads).
Proof.
  induction payloads as [|p ps IH]; intros H; [reflexivity|].
  unfold data_lines. cbn [map concat]. fold (data_lines ps).
  rewrite <- !app_assoc, without_token_token. cbn [app].
  rewrite without_token_payload by (apply H; now left).
  now rewrite IH by (intros q I; apply H; now right).
Qed.

Lemma ends_line_app (s : jsstring) : ends_line (s ++ [LF]).
Proof. induction s; cbn; now constructor. Qed.

Lemma ends_line_not_nil (s : jsstring) : ends_line s -> s <> [].
Proof. now destruct 1. Qed.

Section LineSplit.
Variable sep : jsstring.
Hypothesis sep_not_nil : sep <> [].
Hypothesis sep_no_lf : ~ In LF sep.
Variable b : jsstring.

Lemma starts_with_ends_line (a : jsstring) :
  ends_line a ->
  forall p, ~ In LF p -> starts_with p (a ++ b) = starts_with p a.
Proof.
  induction 1 as [|c a E IH]; intros [|x p] N; trivial; cbn.
  - destruct (x =? LF) eqn:X; [|reflexivity].
    apply Z.eqb_eq in X. subst x. elim N. now left.
  - rewrite IH; [reflexivity|]. intros I. apply N. now right.
Qed.

Lemma skipn_ends_line (a : jsstring) :
  ends_line a ->
  forall p, p <> [] -> ~ In LF p -> starts_with p a = true ->
  (skipn (length p) a = [] \/ ends_line (skipn (length p) a)) /\
  skipn (length p) (a ++ b) = skipn (length p) a ++ b.
Proof.
  induction 1 as [|c a E IH]; intros [|x p] P N; try easy; cbn.
  - destruct (x =? LF) eqn:X; [|discriminate].
    apply Z.eqb_eq in X. subst x. elim N. now left.
  - intros H. apply andb_prop in H as [_ H].
    destruct p as [|y p].
    + split; [right; exact E|reflexivity].
    + apply IH; trivial; [discriminate|]. intros I. apply N. now right.
Qed.

(** The search for the separator in a text that goes on after a line. *)
Lemma until_sep_ends_line (a : jsstring) :
  ends_line a ->
  until_sep sep (a ++ b) =
    match until_sep sep a with
    | (piece, Some r) => (piece, Some (r ++ b))
    | (piece, None) =>
        (piece ++ fst (until_sep sep b), snd (until_sep sep b))
    end /\
  forall piece r,
    until_sep sep a = (piece, Some r) -> r = [] \/ ends_line r.
Proof.
  induction 1 as [|c a E [IH1 IH2]].
  - assert (forall t, starts_with sep (LF :: t) = false) as P.
    { intros t. destruct (starts_with sep (LF :: t)) eqn:P; [|reflexivity].
      apply (starts_with_before_lf sep [] t sep_no_lf) in P.
      now rewrite (starts_with_nil_r _ sep_not_nil) in P. }
    cbn [app until_sep].
    rewrite !P, (starts_with_nil_r _ sep_not_nil).
    split; [now destruct (until_sep sep b)|discriminate].
  - assert (ends_line (c :: a)) as E' by now constructor.
    change ((c :: a) ++ b) with (c :: a ++ b).
    cbn [until_sep].
    change (c :: a ++ b) with ((c :: a) ++ b).
    rewrite (starts_with_ends_line _ E' sep sep_no_lf).
    destruct (starts_with sep (c :: a)) eqn:P.
    + destruct (skipn_ends_line _ E' sep sep_not_nil sep_no_lf P) as [S1 S2].
      rewrite S2. split; [reflexivity|]. now intros ? ? [= <- <-].
    + cbn [app]. rewrite IH1.
      destruct (until_sep sep a) as [piece [r|]].
      * split; [reflexivity|]. intros ? ? [= <- <-]. now apply (IH2 piece).
      * split; [reflexivity|discriminate].
Qed.

End LineSplit.

(** Taking the token out of a text that goes on after a line: the two parts
    can be treated one after the other. *)
Lemma without_token_ends_line (a b : jsstring) :
  ends_line a -> without_token (a ++ b) = without_token a ++ without_token b.
Proof.
  assert (~ In LF (lit "data:")) as L by (vm_compute; intuition discriminate).
  remember (length a) as n eqn:Hn.
  revert a Hn; induction n as [n IH] using lt_wf_ind; intros a Hn E.
  destruct (until_sep_ends_line _ token_not_nil L b a E) as [U1 U2].
  unfold without_token in *.
  rewrite (split_unfold _ (a ++ b) token_not_nil), U1.
  rewrite (split_unfold _ a token_not_nil).
  destruct (until_sep (lit "data:") a) as [piece [r|]] eqn:U.
  - cbn [concat]. rewrite <- app_assoc. f_equal.
    apply until_sep_shorter in U; [|exact token_not_nil].
    destruct (U2 _ _ eq_refl) as [->|Er]; [reflexivity|].
    apply (IH (length r)); trivial. lia.
  - rewrite (split_unfold _ b token_not_nil).
    destruct (until_sep (lit "data:") b) as [pb [rb|]]; cbn [fst snd concat];
      now rewrite <- ?app_assoc, ?app_nil_r.
Qed.

Lemma clean_text2_ends_line (a b : jsstring) :
  ends_line a ->
  App2.clean_text (a ++ b) = App2.clean_text a ++ App2.clean_text b.
Proof.
  intros E. rewrite !clean_text2_spec, without_token_ends_line by trivial.
  apply replace_lf_app.
Qed.

(** ** Chunks that end with a line feed *)

Lemma process_queue_line_end (a0 rest : list Z) :
  exists out,
    process_queue utf8_init (a0 ++ [10]) = out ++ [10] /\
    process_queue utf8_init ((a0 ++ [10]) ++ rest) =
      (out ++ [10]) ++ process_queue utf8_init rest.
Proof.
  pose proof (end_state_reachable a0 _ reachable_init) as R.
  assert (end_state utf8_init (a0 ++ [10]) = utf8_init) as E.
  { rewrite end_state_app. cbn [end_state].
    now rewrite (process_byte_ascii _ 10 R) by lia. }
  assert (exists out, emitted_by utf8_init (a0 ++ [10]) = out ++ [10])
    as [out O].
  { rewrite emitted_by_app. cbn [emitted_by].
    rewrite (process_byte_ascii _ 10 R) by lia. cbn [fst snd].
    rewrite app_nil_r.
    destruct (bytes_needed (end_state utf8_init a0) =? 0).
    - exists (emitted_by utf8_init a0). reflexivity.
    - exists (emitted_by utf8_init a0 ++ [65533]). now rewrite <- app_assoc. }
  exists out. split.
  - now rewrite process_queue_emitted, E, O, app_nil_r.
  - rewrite (process_queue_emitted (_ ++ rest)).
    rewrite (emitted_by_app (a0 ++ [10]) rest).
    rewrite (end_state_app (a0 ++ [10]) rest).
    rewrite E, O, <- !app_assoc. f_equal.
    now rewrite <- process_queue_emitted.
Qed.

Lemma decode_line_end (a0 rest : list Z) :
  begins_with_bom rest = false ->
  ends_line (decode (a0 ++ [10])) /\
  decode ((a0 ++ [10]) ++ rest) = decode (a0 ++ [10]) ++ decode rest.
Proof.
  intros B. destruct (process_queue_line_end a0 rest) as (out & O1 & O2).
  assert (exists out', strip_bom (out ++ [10]) = out' ++ [10]) as [out' O'].
  { destruct out as [|c out]; [now exists []|]. cbn.
    destruct (c =? 65279); [now exists out|now exists (c :: out)]. }
  unfold decode. rewrite O1, O2. split.
  - rewrite O', flat_map_app. apply ends_line_app.
  - rewrite strip_bom_app by now destruct out.
    rewrite flat_map_app. f_equal. f_equal.
    unfold begins_with_bom in B. unfold strip_bom.
    destruct (process_queue utf8_init rest) as [|cp x]; [reflexivity|].
    now rewrite B.
Qed.

Lemma begins_with_bom_line_end (a0 rest : list Z) :
  begins_with_bom ((a0 ++ [10]) ++ rest) = begins_with_bom (a0 ++ [10]).
Proof.
  destruct (process_queue_line_end a0 rest) as (out & O1 & O2).
  unfold begins_with_bom. rewrite O1, O2. now destruct out.
Qed.

Lemma chunk_text2_line_end (a0 rest : list Z) :
  begins_with_bom rest = false ->
  chunk_text2 ((a0 ++ [10]) ++ rest) =
  chunk_text2 (a0 ++ [10]) ++ chunk_text2 rest.
Proof.
  intros B. destruct (decode_line_end a0 rest B) as [E D].
  unfold chunk_text2. rewrite D. now apply clean_text2_ends_line.
Qed.

(** ** Sessions of both components *)

Lemma read_loop2_stream_of (chunks : list (list Z)) (st : state) :
  App2.read_loop (stream_of chunks) st =
  (State (insight st ++ concat (map chunk_text2 chunks)) (loading st), None).
Proof.
  revert st; induction chunks as [|c cs IH]; intros st; cbn.
  - rewrite app_nil_r. now destruct st.
  - rewrite IH. cbn. now rewrite <- app_assoc.
Qed.

Lemma getAiInsights2_delivers (chunks : list (list Z)) (st0 : state) :
  App2.getAiInsights (delivers chunks) st0 =
  (State (concat (map chunk_text2 chunks)) false, CLOSED).
Proof.
  unfold App2.getAiInsights, delivers, App2.try_block. cbn [ok body negb].
  now rewrite read_loop2_stream_of.
Qed.

Lemma output2_chunks (chunks : list (list Z)) :
  App2.output chunks = concat (map chunk_text2 chunks).
Proof. unfold App2.output. now rewrite getAiInsights2_delivers. Qed.

Lemma output2_app (chunks1 chunks2 : list (list Z)) :
  App2.output (chunks1 ++ chunks2) = App2.output chunks1 ++ App2.output chunks2.
Proof. now rewrite !output2_chunks, map_app, concat_app. Qed.

Lemma read_loop_failing (chunks : list (list Z)) (e : Err.error) (st : state) :
  read_loop (failing_stream chunks e) st =
  (State (insight st ++ concat (map chunk_text chunks)) (loading st), Some e).
Proof.
  revert st; induction chunks as [|c cs IH]; intros st; cbn.
  - rewrite app_nil_r. now destruct st.
  - rewrite IH. cbn. now rewrite <- app_assoc.
Qed.

Lemma read_loop2_failing (chunks : list (list Z)) (e : Err.error) (st : state) :
  App2.read_loop (failing_stream chunks e) st =
  (State (insight st ++ concat (map chunk_text2 chunks)) (loading st), Some e).
Proof.
  revert st; induction chunks as [|c cs IH]; intros st; cbn.
  - rewrite app_nil_r. now destruct st.
  - rewrite IH. cbn. now rewrite <- app_assoc.
Qed.

Lemma read_loop_loading (reader : stream) (st : state) :
  loading (fst (read_loop reader st)) = loading st.
Proof. revert st; induction reader; intros st; cbn; trivial. now rewrite IHreader. Qed.

Lemma read_loop2_loading (reader : stream) (st : state) :
  loading (fst (App2.read_loop reader st)) = loading st.
Proof. revert st; induction reader; intros st; cbn; trivial. now rewrite IHreader. Qed.

(** ** The length of what the first component shows *)

Lemma delta_length (jsonStr : jsstring) :
  braced jsonStr -> (length (delta jsonStr) <= length jsonStr)%nat.
Proof. intros B. destruct (frame_delta _ B) as [-> | ->]; cbn; lia. Qed.

Lemma frames_deltas_length (s : jsstring) :
  (length (concat (map delta (frames s))) <= length s)%nat.
Proof.
  remember (length s) as n eqn:Hn.
  revert s Hn; induction n as [n IH] using lt_wf_ind; intros s Hn.
  rewrite frames_unfold.
  destruct (next_frame s) as [[j r]|] eqn:N; [|cbn; lia].
  pose proof (next_frame_shorter _ _ _ N) as Hlt.
  apply next_frame_shape in N as (pre & ws & tail & E & _ & B & R).
  pose proof (delta_length _ B) as D.
  specialize (IH (length r) ltac:(lia) r eq_refl).
  pose proof (drop_lf_length tail) as T. rewrite <- R in T.
  cbn [map concat]. rewrite length_app.
  assert (length j + length tail <= length s)%nat
    by (rewrite E, !length_app; lia).
  lia.
Qed.

Lemma try_parse_frame (jsonStr : jsstring) :
  braced jsonStr -> try_parse jsonStr = Some [] \/ try_parse jsonStr = None.
Proof.
  intros B. unfold try_parse.
  destruct (JSON.parse jsonStr) as [v|] eqn:P; [|now right].
  destruct (parsed_frame_flat _ _ B P) as (ms & -> & F).
  rewrite (content_of_flat ms F). now left.
Qed.

Lemma process_queue_ascii (value : list Z) :
  Forall (fun b => 0 <= b <= 127) value ->
  process_queue utf8_init value = value.
Proof.
  induction 1 as [|b value B F IH]; [reflexivity|].
  cbn [process_queue].
  rewrite (process_byte_ascii _ b reachable_init B). cbn. now rewrite IH.
Qed.

Lemma flat_map_utf16_small (l : list Z) :
  Forall (fun cp => cp < 65536) l -> flat_map utf16 l = l.
Proof.
  induction 1 as [|cp l B F IH]; [reflexivity|].
  cbn [flat_map]. unfold utf16 at 1.
  apply Z.ltb_lt in B. rewrite B. cbn. now rewrite IH.
Qed.

Lemma getAiInsights_end (r : fetch_result) (st : state) :
  loading (fst (getAiInsights r st)) = false /\
  forall d, snd (getAiInsights r st) = FAILED d ->
            insight (fst (getAiInsights r st)) = lit "Error: " ++ d.
Proof.
  unfold getAiInsights.
  destruct (try_block _ _) as [st2 [err|]]; cbn; split; trivial;
    try discriminate. now intros d [= <-].
Qed.

Lemma getAiInsights2_end (r : fetch_result) (st : state) :
  loading (fst (App2.getAiInsights r st)) = false /\
  forall d, snd (App2.getAiInsights r st) = FAILED d ->
            insight (fst (App2.getAiInsights r st)) = lit "Error: " ++ d.
Proof.
  unfold App2.getAiInsights.
  destruct (App2.try_block _ _) as [st2 [err|]]; cbn; split; trivial;
    try discriminate. now intros d [= <-].
Qed.

(** ** Waiting states *)

Lemma started_state (st0 : state) : started st0 = State [] true.
Proof. reflexivity. Qed.

Lemma waiting_loading (on_chunk : list Z -> state -> state)
    (chunks : list (list Z)) (st0 : state) :
  (forall value st, loading (on_chunk value st) = loading st) ->
  loading (waiting on_chunk chunks st0) = true.
Proof.
  intros H. unfold waiting.
  assert (forall st, loading
    (fold_left (fun st value => on_chunk value st) chunks st) = loading st) as F.
  { induction chunks as [|c cs IH]; intros st; [reflexivity|].
    cbn [fold_left]. now rewrite IH, H. }
  now rewrite F.
Qed.

Lemma read_loop_fold (chunks : list (list Z)) (st : state) :
  read_loop (stream_of chunks) st =
  (fold_left (fun st value => on_chunk value st) chunks st, None).
Proof.
  revert st; induction chunks as [|c cs IH]; intros st; [reflexivity|].
  cbn [stream_of read_loop fold_left]. apply IH.
Qed.

Lemma read_loop2_fold (chunks : list (list Z)) (st : state) :
  App2.read_loop (stream_of chunks) st =
  (fold_left (fun st value => App2.on_chunk value st) chunks st, None).
Proof.
  revert st; induction chunks as [|c cs IH]; intros st; [reflexivity|].
  cbn [stream_of App2.read_loop fold_left]. apply IH.
Qed.

Lemma waiting_insight (chunks : list (list Z)) (st0 : state) :
  insight (waiting on_chunk chunks st0) = concat (map chunk_text chunks).
Proof.
  unfold waiting. rewrite started_state.
  pose proof (read_loop_fold chunks (State [] true)) as F.
  rewrite read_loop_stream_of in F. injection F as <-. reflexivity.
Qed.

(** In a state that is loading, the view shows both buttons disabled and a
    click on either changes nothing. *)
Lemma view_while_loading
    (run : fetch_result -> state -> state * terminal_state)
    (r : fetch_result) (w : state) :
  loading w = true ->
  analyze_disabled (render w) = true /\
  clear_disabled (render w) = true /\
  loading_indicator (render w) = true /\
  indicator_class (render w) = lit "indicator " /\
  click_clear w = w /\
  click_analyze run r w = w.
Proof.
  intros L. unfold click_clear, click_analyze.
  cbn [render analyze_disabled clear_disabled loading_indicator
       indicator_class].
  rewrite L. repeat split.
Qed.

(* ================================================================== *)
(** * Further properties: statements *)

(** ** The first component *)

(** X1. Whatever the chunk, a frame found in it either adds nothing or adds
    its own raw text: the [try] block never yields a text of its own, because
    no frame holds the nested objects that the path
    [choices[0].delta.content] needs. *)
Theorem frame_adds_nothing_or_itself (chunk jsonStr cleanText : jsstring) :
  In jsonStr (frames chunk) ->
  (try_parse jsonStr = Some [] \/ try_parse jsonStr = None) /\
  (on_match jsonStr cleanText = cleanText \/
   on_match jsonStr cleanText = cleanText ++ jsonStr).
Proof.
  intros I. apply frames_braced in I. split; [now apply try_parse_frame|].
  rewrite on_match_delta.
  destruct (frame_delta _ I) as [-> | ->]; [left; apply app_nil_r|now right].
Qed.

Lemma frame_adds_nothing_or_itself_witness :
  (try_parse (quoted "{'choices':'text'}") = Some [] \/
   try_parse (quoted "{'choices':'text'}") = None) /\
  (on_match (quoted "{'choices':'text'}") (lit "so far") = lit "so far" \/
   on_match (quoted "{'choices':'text'}") (lit "so far") =
     lit "so far" ++ quoted "{'choices':'text'}").
Proof.
  apply (frame_adds_nothing_or_itself
           (quoted "data: {'choices':'text'}" ++ [LF])).
  vm_compute. left. reflexivity.
Defined.

(** X2. The text a chunk adds is never longer than the chunk. *)
Theorem clean_text_not_longer (chunk : jsstring) :
  (length (clean_text chunk) <= length chunk)%nat.
Proof. rewrite clean_text_frames. apply frames_deltas_length. Qed.

(** X3. When a read fails after some chunks were delivered, the text they
    had added is replaced by the error text: the session ends FAILED, with
    [loading] false, whatever the chunks were. *)
Theorem read_failure_replaces_text
    (chunks : list (list Z)) (e : Err.error) (st0 : state) :
  getAiInsights
    (Fulfilled (Response true (Some (failing_stream chunks e)))) st0 =
  (State (lit "Error: " ++ Err.to_string e) false, FAILED (Err.to_string e)).
Proof.
  unfold getAiInsights, try_block. cbn [ok body negb].
  now rewrite read_loop_failing.
Qed.

(** X4. While a session of the first component waits, for the fetch or for
    the next read after any chunks, [loading] is true and the text is what
    the chunks read so far have added.  When the backend settles (the fetch
    is answered or rejected, and the stream ends or a read fails) the
    session leaves [loading] false, its result does not depend on the state
    it started in, and it ends CLOSED, or FAILED with the text being the
    marker [Error: ] followed by the description; a stream that ends leaves
    the last waiting state with [loading] set to false. *)
Theorem loading_while_waiting_false_when_settled
    (chunks : list (list Z)) (r : fetch_result) (st0 : state) :
  (loading (waiting on_chunk chunks st0) = true /\
   insight (waiting on_chunk chunks st0) = concat (map chunk_text chunks)) /\
  getAiInsights (delivers chunks) st0 =
    (setLoading false (waiting on_chunk chunks st0), CLOSED) /\
  loading (fst (getAiInsights r st0)) = false /\
  getAiInsights r st0 = getAiInsights r initial /\
  (snd (getAiInsights r st0) = CLOSED \/
   exists description,
     snd (getAiInsights r st0) = FAILED description /\
     insight (fst (getAiInsights r st0)) = lit "Error: " ++ description).
Proof.
  split; [split; [now apply waiting_loading|apply waiting_insight]|].
  split.
  { unfold getAiInsights, delivers, try_block. cbn [ok body negb].
    fold (started st0). now rewrite read_loop_fold. }
  unfold getAiInsights.
  change (setInsight (fun _ => []) (setLoading true st0)) with (State [] true).
  change (setInsight (fun _ => []) (setLoading true initial))
    with (State [] true).
  destruct (try_block r (State [] true)) as [st2 [err|]]; cbn.
  - repeat split. right. now exists (Err.to_string err).
  - repeat split. now left.
Qed.

(** X5. A chunk of ASCII bytes is decoded to the same code units. *)
Theorem decode_ascii_unchanged (value : list Z) :
  Forall (fun b => 0 <= b <= 127) value -> decode value = value.
Proof.
  intros F. unfold decode. rewrite (process_queue_ascii _ F).
  assert (strip_bom value = value) as ->.
  { destruct F as [|b value B F]; [reflexivity|]. cbn.
    destruct (b =? 65279) eqn:E; [|reflexivity].
    apply Z.eqb_eq in E. cbv beta in B. lia. }
  apply flat_map_utf16_small.
  eapply Forall_impl; [|exact F]. cbn. intros; lia.
Qed.

Lemma decode_ascii_unchanged_witness :
  decode (lit "data: {x}" ++ [LF]) = lit "data: {x}" ++ [LF].
Proof.
  apply decode_ascii_unchanged. vm_compute.
  repeat (constructor; [split; discriminate|]). constructor.
Defined.

(** ** The second component *)

(** X6. [split] loses nothing but the token: joining the pieces with the
    token gives the chunk back, and no piece holds the token. *)
Theorem split_rejoins (chunk : jsstring) :
  join (lit "data:") (split (lit "data:") chunk) = chunk /\
  forall piece,
    In piece (split (lit "data:") chunk) ->
    includes piece (lit "data:") = false.
Proof.
  split; [apply split_join, token_not_nil|].
  intros piece. apply split_pieces_free, token_not_nil.
Qed.

(** X7. The text the second component makes of a chunk is the chunk with the
    tokens found by [split] and then all line feeds taken out: it holds no
    line feed, it is not longer than the chunk, and a chunk without token
    and line feed is shown as it is. *)
Theorem clean_text2_removes_token_and_line_feeds (chunk : jsstring) :
  App2.clean_text chunk = replace_lf (without_token chunk) /\
  ~ In LF (App2.clean_text chunk) /\
  (length (App2.clean_text chunk) <= length chunk)%nat /\
  (includes chunk (lit "data:") = false -> ~ In LF chunk ->
   App2.clean_text chunk = chunk).
Proof.
  rewrite clean_text2_spec. repeat split.
  - unfold replace_lf. intros I. apply filter_In in I as [_ I].
    now rewrite Z.eqb_refl in I.
  - unfold replace_lf.
    pose proof (filter_length_le (fun c => negb (c =? LF)) (without_token chunk)).
    pose proof (length_concat_join (lit "data:") (split (lit "data:") chunk)) as J.
    rewrite (split_join _ chunk token_not_nil) in J.
    unfold without_token in *. lia.
  - intros F N. unfold without_token.
    rewrite (split_unfold _ chunk token_not_nil), (split_whole _ _ F).
    cbn [concat]. rewrite app_nil_r. now apply replace_lf_none.
Qed.

Lemma clean_text2_removes_token_and_line_feeds_witness :
  App2.clean_text (lit "no token here") = lit "no token here".
Proof.
  apply (clean_text2_removes_token_and_line_feeds (lit "no token here")).
  - vm_compute. reflexivity.
  - vm_compute. intuition discriminate.
Defined.

(** X8. For a chunk made of lines [data:payload], each ended by a line feed,
    whose payloads hold neither the token nor a line feed, the second
    component shows the payloads one after the other, as they are: neither
    the white space after the token is dropped nor any payload parsed. *)
Theorem data_lines_show_payloads (payloads : list jsstring) :
  (forall p, In p payloads ->
             includes p (lit "data:") = false /\ ~ In LF p) ->
  App2.clean_text (data_lines payloads) = concat payloads.
Proof.
  intros H. rewrite clean_text2_spec, without_token_data_lines
    by (intros p I; now apply H).
  rewrite <- replace_lf_concat, map_map. f_equal.
  rewrite <- (map_id payloads) at 2. apply map_ext_in.
  intros p I. rewrite replace_lf_app, replace_lf_none by now apply H.
  apply app_nil_r.
Qed.

Lemma data_lines_show_payloads_witness :
  App2.clean_text
    (data_lines [quoted " {'choices':[{'delta':{'content':'Hi'}}]}";
                 lit " [DONE]"]) =
  concat [quoted " {'choices':[{'delta':{'content':'Hi'}}]}"; lit " [DONE]"].
Proof.
  apply data_lines_show_payloads.
  intros p [<-|[<-|[]]]; split; vm_compute; intuition discriminate.
Defined.

(** X9. In the second component a partition of a byte stream in which every
    chunk but the last ends with a line feed, and no chunk after the first
    begins with a byte order mark, yields the same output as the unsplit
    stream. *)
Theorem output2_same_for_line_splits
    (chunks : list (list Z)) (last : list Z) :
  (forall c, In c chunks -> exists c0, c = c0 ++ [10]) ->
  (forall c, In c (tl (chunks ++ [last])) -> begins_with_bom c = false) ->
  App2.output (chunks ++ [last]) = App2.output [concat chunks ++ last].
Proof.
  induction chunks as [|c cs IH]; intros H B; [reflexivity|].
  change ((c :: cs) ++ [last]) with ([c] ++ (cs ++ [last])).
  cbn [app tl] in B.
  rewrite output2_app, IH.
  - destruct (H c) as [c0 ->]; [now left|].
    rewrite !output2_chunks. cbn [map concat].
    rewrite !app_nil_r, <- (app_assoc (c0 ++ [10])).
    rewrite chunk_text2_line_end; [reflexivity|].
    destruct cs as [|c' cs]; [apply B; now left|].
    destruct (H c') as [c0' ->]; [right; now left|].
    cbn [concat]. rewrite <- app_assoc, begins_with_bom_line_end.
    apply B. now left.
  - intros x I. apply H. now right.
  - intros x I. apply B. destruct cs as [|c' cs]; [contradiction|].
    cbn [app tl] in I. now right.
Qed.

Lemma output2_same_for_line_splits_witness :
  App2.output ([lit "data: one" ++ [10]] ++ [lit "data: two" ++ [10]]) =
  App2.output [concat [lit "data: one" ++ [10]] ++ lit "data: two" ++ [10]].
Proof.
  apply output2_same_for_line_splits.
  - intros c [<-|[]]. exists (lit "data: one"). reflexivity.
  - intros c [<-|[]]. vm_compute. reflexivity.
Defined.

(** X10. The sessions of the second component: a stream that ends normally
    ends CLOSED with the texts of its chunks one after the other; a failed
    read, a non-success status or a missing body ends FAILED, and the error
    text replaces whatever was shown; [loading] is false in the end. *)
Theorem second_session_outcomes
    (chunks : list (list Z)) (e : Err.error) (st0 : state) :
  App2.getAiInsights (delivers chunks) st0 =
    (State (concat (map chunk_text2 chunks)) false, CLOSED) /\
  App2.getAiInsights
    (Fulfilled (Response true (Some (failing_stream chunks e)))) st0 =
    (State (lit "Error: " ++ Err.to_string e) false,
     FAILED (Err.to_string e)) /\
  (forall b,
    App2.getAiInsights (Fulfilled (Response false b)) st0 =
    (State (lit "Error: Error: Backend unreachable") false,
     FAILED (lit "Error: Backend unreachable"))) /\
  App2.getAiInsights (Fulfilled (Response true None)) st0 =
    (State
       (lit "Error: Error: ReadableStream not yet supported or empty response")
       false,
     FAILED (lit "Error: ReadableStream not yet supported or empty response")) /\
  forall r, loading (fst (App2.getAiInsights r st0)) = false.
Proof.
  split; [apply getAiInsights2_delivers|].
  split.
  { unfold App2.getAiInsights, App2.try_block. cbn [ok body negb].
    now rewrite read_loop2_failing. }
  split; [reflexivity|]. split; [reflexivity|].
  intros r. unfold App2.getAiInsights.
  now destruct (App2.try_block _ _) as [st2 [err|]].
Qed.

(** ** The view *)

(** X11. For either component: while the session started by a click on
    ANALYZE waits, for the fetch or for the next read after any chunks, both
    buttons are disabled, the loading indicator is shown, the status light is
    not active and a click on either button changes nothing.  Once the
    backend has settled and the session has ended, both buttons are enabled
    again, the loading indicator is hidden and the status light is active;
    if the session failed the screen shows the error text, never the
    placeholder; a click on CLEAR then brings the placeholder back. *)
Theorem view_while_waiting_and_when_settled
    (run : fetch_result -> state -> state * terminal_state)
    (on_chunk : list Z -> state -> state)
    (chunks : list (list Z)) (r r' : fetch_result) (st : state) :
  (run = App.getAiInsights /\ on_chunk = App.on_chunk) \/
  (run = App2.getAiInsights /\ on_chunk = App2.on_chunk) ->
  loading st = false ->
  (let w := waiting on_chunk chunks st in
   analyze_disabled (render w) = true /\
   clear_disabled (render w) = true /\
   loading_indicator (render w) = true /\
   indicator_class (render w) = lit "indicator " /\
   click_clear w = w /\
   click_analyze run r' w = w) /\
  (let st' := click_analyze run r st in
   analyze_disabled (render st') = false /\
   clear_disabled (render st') = false /\
   loading_indicator (render st') = false /\
   indicator_class (render st') = lit "indicator active" /\
   (forall description,
       snd (run r st) = FAILED description ->
       display (render st') = AnalysisText (lit "Error: " ++ description)) /\
   display (render (click_clear st')) = PlaceholderText).
Proof.
  intros Hrun L. split.
  - cbv zeta. apply view_while_loading.
    apply waiting_loading. now destruct Hrun as [[_ ->]|[_ ->]].
  - unfold click_analyze. cbn [render analyze_disabled]. rewrite L.
    assert (loading (fst (run r st)) = false /\
            forall d, snd (run r st) = FAILED d ->
                      insight (fst (run r st)) = lit "Error: " ++ d) as [L' F].
    { destruct Hrun as [[-> _]|[-> _]];
        [apply getAiInsights_end|apply getAiInsights2_end]. }
    cbv zeta. unfold click_clear.
    cbn [render analyze_disabled clear_disabled loading_indicator
         indicator_class display].
    rewrite L'. repeat split.
    intros d H. now rewrite (F d H).
Qed.

Lemma view_while_waiting_and_when_settled_witness :
  (let w := waiting App.on_chunk [lit "data: {x}" ++ [LF]] initial in
   analyze_disabled (render w) = true /\
   clear_disabled (render w) = true /\
   loading_indicator (render w) = true /\
   indicator_class (render w) = lit "indicator " /\
   click_clear w = w /\
   click_analyze App.getAiInsights (delivers []) w = w) /\
  (let st' :=
     click_analyze App.getAiInsights (Fulfilled (Response false None)) initial in
   analyze_disabled (render st') = false /\
   clear_disabled (render st') = false /\
   loading_indicator (render st') = false /\
   indicator_class (render st') = lit "indicator active" /\
   (forall description,
       snd (App.getAiInsights (Fulfilled (Response false None)) initial) =
         FAILED description ->
       display (render st') = AnalysisText (lit "Error: " ++ description)) /\
   display (render (click_clear st')) = PlaceholderText).
Proof.
  apply (view_while_waiting_and_when_settled App.getAiInsights App.on_chunk).
  - left. split; reflexivity.
  - reflexivity.
Defined.
